(** * SolidityDiagram: the resolution engine

    A shallow embedding of the analysis core of the SolidityDiagram
    extension: the AST walker ([ASTTraverser]), the type resolver
    ([TypeResolver]), the call-graph builder ([CallGraphBuilder]), the
    state-variable resolver ([StateVariableResolver]) and the inheritance
    resolver ([InheritanceResolver]), followed by the properties of the
    specification that were checked against them.

    Conventions of the embedding.
    - Text is a [string]: a sequence of 8-bit characters.  Letter case
      mapping and the classes [\w], [\s] and [.] of regular expressions are
      those of JavaScript restricted to that range.
    - A [Map] or a [Set] is an association list or a list kept in insertion
      order (JavaScript iterates both in insertion order).
    - A regular expression is a value of type [regex], written as in the
      source and run by a backtracking matcher with the priorities of the
      JavaScript one (greedy and lazy repetition, ordered alternation).
    - A [Promise] is the value it resolves to. *)

From Stdlib Require Import List String Ascii Bool Arith ZArith Lia.
From Stdlib Require Import Relations.Relation_Operators.
Import ListNotations.

Set Implicit Arguments.
Local Open Scope string_scope.
Local Open Scope list_scope.
Local Open Scope nat_scope.

(* ================================================================== *)
(** ** JavaScript strings *)
(* ================================================================== *)

Module Js.

Definition chars (s : string) : list ascii := list_ascii_of_string s.
Definition str (l : list ascii) : string := string_of_list_ascii l.

Definition code (c : ascii) : nat := nat_of_ascii c.

Definition in_range (lo hi c : ascii) : bool :=
  (code lo <=? code c) && (code c <=? code hi).

Definition is_upper (c : ascii) : bool := in_range "A" "Z" c.
Definition is_lower (c : ascii) : bool := in_range "a" "z" c.

Definition lower_char (c : ascii) : ascii :=
  if is_upper c then ascii_of_nat (code c + 32) else c.
Definition upper_char (c : ascii) : ascii :=
  if is_lower c then ascii_of_nat (code c - 32) else c.

(** [s.toLowerCase()] and [s.toUpperCase()]: the letters [A] to [Z] and
    [a] to [z] are mapped; the callers compare the result with names made
    of such letters, digits and underscores only. *)
Definition toLowerCase (s : string) : string := str (map lower_char (chars s)).
Definition toUpperCase (s : string) : string := str (map upper_char (chars s)).

(** [s.split(sep)] for a one-character separator: never empty. *)
Fixpoint split_chars (sep : ascii) (cur : list ascii) (l : list ascii)
  : list string :=
  match l with
  | [] => [str (rev cur)]
  | c :: l' =>
      if Ascii.eqb c sep then str (rev cur) :: split_chars sep [] l'
      else split_chars sep (c :: cur) l'
  end.

Definition split (sep : ascii) (s : string) : list string :=
  split_chars sep [] (chars s).

(** [parts[parts.length - 1]]. *)
Definition last_part (parts : list string) : string := last parts "".

(** [parts[0]]. *)
Definition first_part (parts : list string) : string := hd "" parts.

(** [s.split('.').pop() || s]: the empty string is falsy. *)
Definition pop_or (s : string) : string :=
  let p := last_part (split "." s) in
  if String.eqb p "" then s else p.

(** [s.startsWith(p)] and [s.includes(p)]. *)
Fixpoint starts_with (p l : list ascii) : bool :=
  match p, l with
  | [], _ => true
  | _ :: _, [] => false
  | a :: p', b :: l' => Ascii.eqb a b && starts_with p' l'
  end.

Definition startsWith (s p : string) : bool := starts_with (chars p) (chars s).

Fixpoint includes_chars (p l : list ascii) : bool :=
  starts_with p l ||
  match l with
  | [] => false
  | _ :: l' => includes_chars p l'
  end.

Definition includes (s p : string) : bool := includes_chars (chars p) (chars s).

(** White space of [\s] and of [trim]. *)
Definition is_space (c : ascii) : bool :=
  let n := code c in
  ((9 <=? n) && (n <=? 13)) || (n =? 32) || (n =? 160).

Fixpoint drop_space (l : list ascii) : list ascii :=
  match l with
  | c :: l' => if is_space c then drop_space l' else l
  | [] => []
  end.

(** [s.trim()]. *)
Definition trim (s : string) : string :=
  str (rev (drop_space (rev (drop_space (chars s))))).

(** Membership in a [Set] of strings, and [add], which keeps the place of
    an element that is already there. *)
Definition has (x : string) (l : list string) : bool :=
  existsb (String.eqb x) l.

Definition add (x : string) (l : list string) : list string :=
  if has x l then l else l ++ [x].

End Js.

(* ================================================================== *)
(** ** Regular expressions *)
(* ================================================================== *)

Module Regex.

(** The constructs the sources use.  [RSet neg rs] is a character class
    given by ranges, negated when [neg]; [RStar greedy r] is [r*] or
    [r*?]; [RGroup i r] is the [i]-th capturing group; [RNotBehind rs] is
    the negative look-behind [(?<![rs])] of one character. *)
Inductive regex : Type :=
| REps
| RChr (c : ascii)
| RSet (neg : bool) (rs : list (ascii * ascii))
| RSeq (a b : regex)
| RAlt (a b : regex)
| RStar (greedy : bool) (a : regex)
| RGroup (i : nat) (a : regex)
| RBol
| REol
| RWordB
| RNotBehind (rs : list (ascii * ascii)).

Definition in_set (rs : list (ascii * ascii)) (c : ascii) : bool :=
  existsb (fun r => Js.in_range (fst r) (snd r) c) rs.

(** [\w], [\s], [.] and their use in classes. *)
Definition word : list (ascii * ascii) :=
  [("a", "z"); ("A", "Z"); ("0", "9"); ("_", "_")]%char.
Definition space : list (ascii * ascii) :=
  [("009", "013"); (" ", " "); ("160", "160")]%char.
Definition newline : list (ascii * ascii) :=
  [("010", "010"); ("013", "013")]%char.

Definition w : regex := RSet false word.
Definition s : regex := RSet false space.
Definition dot : regex := RSet true newline.
Definition one (c : ascii) : list (ascii * ascii) := [(c, c)].

Definition plus (greedy : bool) (r : regex) : regex :=
  RSeq r (RStar greedy r).
Definition star (r : regex) : regex := RStar true r.

Fixpoint lit_chars (l : list ascii) : regex :=
  match l with
  | [] => REps
  | [c] => RChr c
  | c :: l' => RSeq (RChr c) (lit_chars l')
  end.

(** A literal; also the text spliced into a pattern by a template
    string, which is literal whenever it holds word characters only. *)
Definition lit (t : string) : regex := lit_chars (Js.chars t).

Fixpoint seq (rs : list regex) : regex :=
  match rs with
  | [] => REps
  | [r] => r
  | r :: rs' => RSeq r (seq rs')
  end.

(** A position in the subject: what was read, last character first, and
    what is left. *)
Record cursor : Type := Cursor { before : list ascii; after : list ascii }.

Definition index (p : cursor) : nat := List.length (before p).

Definition captures : Type := list (nat * string).

Definition capture (i : nat) (cs : captures) : option string :=
  match find (fun c => fst c =? i) cs with
  | Some c => Some (snd c)
  | None => None
  end.

Definition is_word_opt (o : option ascii) : bool :=
  match o with
  | Some c => in_set word c
  | None => false
  end.

Definition at_boundary (p : cursor) : bool :=
  xorb (is_word_opt (hd_error (before p))) (is_word_opt (hd_error (after p))).

(** The text read between two positions of one subject. *)
Definition consumed (p q : cursor) : string :=
  Js.str (firstn (List.length (after p) - List.length (after q)) (after p)).

Section Matcher.
Variable R : Type.

(** The body of a repetition: [step] matches the repeated expression once
    and [n] bounds the number of rounds.  A round that reads nothing is
    refused, as in JavaScript, so a repetition never goes through more
    rounds than there are characters left. *)
Fixpoint repeat_step
  (step : cursor -> captures -> (cursor -> captures -> option R) -> option R)
  (greedy : bool) (k : cursor -> captures -> option R)
  (n : nat) (p : cursor) (cs : captures) : option R :=
  match n with
  | 0 => k p cs
  | S n' =>
      let again :=
        step p cs (fun q cs' =>
          if List.length (after q) <? List.length (after p)
          then repeat_step step greedy k n' q cs' else None) in
      if greedy then
        match again with
        | Some x => Some x
        | None => k p cs
        end
      else
        match k p cs with
        | Some x => Some x
        | None => again
        end
  end.

(** Backtracking matcher in continuation-passing style: [run r p cs k]
    tries the ways [r] matches at [p] in priority order and gives the
    first for which the continuation [k] succeeds. *)
Fixpoint run (r : regex) (p : cursor) (cs : captures)
  (k : cursor -> captures -> option R) {struct r} : option R :=
  match r with
  | REps => k p cs
  | RChr c =>
      match after p with
      | x :: rest =>
          if Ascii.eqb x c then k (Cursor (x :: before p) rest) cs else None
      | [] => None
      end
  | RSet neg rs =>
      match after p with
      | x :: rest =>
          if xorb neg (in_set rs x)
          then k (Cursor (x :: before p) rest) cs else None
      | [] => None
      end
  | RSeq a b => run a p cs (fun q cs' => run b q cs' k)
  | RAlt a b =>
      match run a p cs k with
      | Some x => Some x
      | None => run b p cs k
      end
  | RStar greedy a =>
      repeat_step (run a) greedy k (List.length (after p)) p cs
  | RGroup i a =>
      run a p cs (fun q cs' => k q ((i, consumed p q) :: cs'))
  | RBol => match before p with [] => k p cs | _ => None end
  | REol => match after p with [] => k p cs | _ => None end
  | RWordB => if at_boundary p then k p cs else None
  | RNotBehind rs =>
      match before p with
      | x :: _ => if in_set rs x then None else k p cs
      | [] => k p cs
      end
  end.
End Matcher.

(** A match: where it starts, where it ends, the groups. *)
Record result : Type :=
  Match { m_start : nat; m_end : cursor; m_groups : captures }.

Definition match_at (r : regex) (p : cursor) : option result :=
  run r p [] (fun q cs => Some (Match (index p) q cs)).

(** The leftmost match at or after a position. *)
Fixpoint search (r : regex) (n : nat) (p : cursor) : option result :=
  match match_at r p with
  | Some m => Some m
  | None =>
      match n, after p with
      | S n', x :: rest => search r n' (Cursor (x :: before p) rest)
      | _, _ => None
      end
  end.

Definition start_of (t : string) : cursor := Cursor [] (Js.chars t).

(** [re.exec(t)] of a fresh expression and [t.match(re)] without the
    [g] flag. *)
Definition exec (r : regex) (t : string) : option result :=
  search r (String.length t) (start_of t).

(** [re.test(t)]. *)
Definition test (r : regex) (t : string) : bool :=
  match exec r t with Some _ => true | None => false end.

(** [match[i]]; a group that took no part is [undefined], which the
    callers here treat as the empty string. *)
Definition group (i : nat) (m : result) : string :=
  match capture i (m_groups m) with Some t => t | None => "" end.

(** The loop [while ((match = re.exec(t)) !== null)] of an expression
    with the [g] flag: every match from left to right, each search
    resuming where the previous match ended.  None of the expressions
    scanned this way matches the empty string ([scanned_patterns_read]),
    so the loop ends, and within the bound on the number of matches that
    the length of the subject gives ([scan_enough]). *)
Fixpoint scan_from (r : regex) (n : nat) (p : cursor) : list result :=
  match n with
  | 0 => []
  | S n' =>
      match search r (List.length (after p)) p with
      | Some m => m :: scan_from r n' (m_end m)
      | None => []
      end
  end.

Definition scan (r : regex) (t : string) : list result :=
  scan_from r (S (String.length t)) (start_of t).

End Regex.

(* ================================================================== *)
(** ** Data model ([types/index.ts]) *)
(* ================================================================== *)

Module Position.
Record t : Type := mk { line : Z; column : Z }.
End Position.

Module SourceLocation.
(** [start] and [end]. *)
Record t : Type := mk { start : Position.t; finish : Position.t }.
End SourceLocation.

Module ParameterInfo.
Record t : Type := mk {
  name : string;
  typeName : string;
  storageLocation : option string }.
End ParameterInfo.

Module FunctionInfo.
Record t : Type := mk {
  name : string;
  visibility : string;
  stateMutability : option string;
  parameters : list ParameterInfo.t;
  returnParameters : list ParameterInfo.t;
  modifiers : list string;
  body : string;
  fullSource : string;
  location : SourceLocation.t;
  filePath : string }.
End FunctionInfo.

Module StructMember.
Record t : Type := mk { name : string; typeName : string }.
End StructMember.

Module StructInfo.
Record t : Type := mk {
  name : string;
  members : list StructMember.t;
  fullSource : string;
  location : SourceLocation.t;
  filePath : string;
  contractName : option string }.
End StructInfo.

Module EnumInfo.
Record t : Type := mk {
  name : string;
  members : list string;
  fullSource : string;
  location : SourceLocation.t;
  filePath : string;
  contractName : option string }.
End EnumInfo.

Module StateVariableInfo.
Record t : Type := mk {
  name : string;
  typeName : string;
  visibility : string;
  fullSource : string;
  location : SourceLocation.t;
  filePath : string;
  contractName : string }.
End StateVariableInfo.

Inductive ContractKind : Type :=
| KContract | KInterface | KLibrary | KAbstract.

Definition is_interface (k : ContractKind) : bool :=
  match k with KInterface => true | _ => false end.

Module ContractInfo.
(** Modelled from the spec: the field [baseContracts], which the
    inheritance resolver reads and the declaration of [ContractInfo] at
    hand does not list.  It is the "list of base-type names (declared
    inheritance, by name only)" of the data model. *)
Record t : Type := mk {
  name : string;
  kind : ContractKind;
  functions : list FunctionInfo.t;
  structs : list StructInfo.t;
  enums : list EnumInfo.t;
  stateVariables : list StateVariableInfo.t;
  baseContracts : list string;
  location : SourceLocation.t;
  filePath : string }.
End ContractInfo.

Module ImportInfo.
Record t : Type := mk {
  path : string;
  absolutePath : option string;
  symbols : list string }.
End ImportInfo.

Module ParsedFile.
Record t : Type := mk {
  filePath : string;
  contracts : list ContractInfo.t;
  imports : list ImportInfo.t;
  pragmas : list string }.
End ParsedFile.

Module FunctionCallInfo.
(** [arguments] is [args] here. *)
Record t : Type := mk {
  name : string;
  expression : string;
  args : list string;
  location : SourceLocation.t;
  resolvedFunction : option FunctionInfo.t }.
End FunctionCallInfo.

Inductive TypeKind : Type :=
| TStruct | TEnum | TContract | TInterface | TLibrary.

(** [StructInfo | EnumInfo]. *)
Inductive TypeDefinition : Type :=
| DStruct (d : StructInfo.t)
| DEnum (d : EnumInfo.t).

Module TypeReference.
Record t : Type := mk {
  name : string;
  kind : TypeKind;
  definition : option TypeDefinition }.
End TypeReference.

Module ImplementationInfo.
(** Modelled from the spec: the declaration of [ImplementationInfo],
    absent from the declarations at hand; the fields are those of the
    data model and of the object [findMethodInContract] builds. *)
Record t : Type := mk {
  contractName : string;
  contractKind : ContractKind;
  functionInfo : FunctionInfo.t;
  filePath : string;
  isInherited : bool;
  inheritanceChain : list string }.
End ImplementationInfo.

(** [Map<string, ParsedFile>], in insertion order. *)
Definition Workspace : Type := list (string * ParsedFile.t).

(** The first defined result of [f] along a list: the shape of every
    [for ... { if (found) return found; }] loop of the resolvers. *)
Fixpoint first_some {A B : Type} (f : A -> option B) (l : list A) : option B :=
  match l with
  | [] => None
  | x :: l' =>
      match f x with
      | Some y => Some y
      | None => first_some f l'
      end
  end.

(* ================================================================== *)
(** ** Type resolver ([TypeResolver]) *)
(* ================================================================== *)

Module TypeResolver.
Import Regex.

Definition ELEMENTARY_TYPES : list string := [
  "address"; "bool"; "string"; "bytes"; "uint"; "int";
  "uint8"; "uint16"; "uint24"; "uint32"; "uint40"; "uint48"; "uint56"; "uint64";
  "uint72"; "uint80"; "uint88"; "uint96"; "uint104"; "uint112"; "uint120"; "uint128";
  "uint136"; "uint144"; "uint152"; "uint160"; "uint168"; "uint176"; "uint184"; "uint192";
  "uint200"; "uint208"; "uint216"; "uint224"; "uint232"; "uint240"; "uint248"; "uint256";
  "int8"; "int16"; "int24"; "int32"; "int40"; "int48"; "int56"; "int64";
  "int72"; "int80"; "int88"; "int96"; "int104"; "int112"; "int120"; "int128";
  "int136"; "int144"; "int152"; "int160"; "int168"; "int176"; "int184"; "int192";
  "int200"; "int208"; "int216"; "int224"; "int232"; "int240"; "int248"; "int256";
  "bytes1"; "bytes2"; "bytes3"; "bytes4"; "bytes5"; "bytes6"; "bytes7"; "bytes8";
  "bytes9"; "bytes10"; "bytes11"; "bytes12"; "bytes13"; "bytes14"; "bytes15"; "bytes16";
  "bytes17"; "bytes18"; "bytes19"; "bytes20"; "bytes21"; "bytes22"; "bytes23"; "bytes24";
  "bytes25"; "bytes26"; "bytes27"; "bytes28"; "bytes29"; "bytes30"; "bytes31"; "bytes32";
  "function"; "unknown"; "void"; "var" ].

Definition SKIP_NAMES : list string := [
  "require"; "assert"; "revert"; "keccak256"; "sha256"; "sha3";
  "ripemd160"; "ecrecover"; "addmod"; "mulmod"; "selfdestruct";
  "blockhash"; "gasleft"; "Error"; "Panic"; "abi"; "block";
  "msg"; "tx"; "this"; "super"; "type"; "true"; "false";
  "if"; "else"; "for"; "while"; "do"; "return"; "emit"; "new"; "delete";
  "memory"; "storage"; "calldata"; "public"; "private"; "internal"; "external";
  "pure"; "view"; "payable"; "constant"; "immutable"; "virtual"; "override" ].

(** The comments quote each pattern of the source; where the source has
    a star right before a closing parenthesis, a blank separates them. *)

Definition upper : regex := RSet false [("A", "Z")]%char.

(** [[A-Z][a-zA-Z0-9_]*]: a capitalised identifier. *)
Definition capitalised : regex := RSeq upper (star w).

(** [/mapping\s*\(\s*(.+?)\s*=>\s*(.+)\s*\)/] *)
Definition mappingPattern : regex :=
  seq [lit "mapping"; star s; RChr "("; star s; RGroup 1 (plus false dot);
       star s; lit "=>"; star s; RGroup 2 (plus true dot); star s; RChr ")"].

(** [/^(.+?)\s*\[.*\]$/] *)
Definition arrayPattern : regex :=
  seq [RBol; RGroup 1 (plus false dot); star s; RChr "["; star dot;
       RChr "]"; REol].

(** [/^[A-Z]/] *)
Definition startsUpper : regex := RSeq RBol upper.

(** [/^I[A-Z]/]: the naming convention of interfaces. *)
Definition interfaceName : regex := seq [RBol; RChr "I"; upper].

(** [extractFromTypeName].  The operands of a mapping and the element
    type of an array are proper pieces of the type name, so the depth of
    the recursion is below its length; [n] counts that depth down, and
    [extractFromTypeName_depth_enough] shows that it is never used up. *)
Fixpoint extractFromTypeName_depth (n : nat) (typeName : string)
  (types : list string) : list string :=
  match n with
  | 0 => types
  | S n' =>
      match exec mappingPattern typeName with
      | Some m =>
          let types1 :=
            extractFromTypeName_depth n' (Js.trim (group 1 m)) types in
          extractFromTypeName_depth n' (Js.trim (group 2 m)) types1
      | None =>
          match exec arrayPattern typeName with
          | Some m =>
              extractFromTypeName_depth n' (Js.trim (group 1 m)) types
          | None =>
              let cleanName := Js.pop_or typeName in
              if Js.has (Js.toLowerCase cleanName) ELEMENTARY_TYPES then types
              else if Js.has cleanName SKIP_NAMES then types
              else if test startsUpper cleanName then Js.add typeName types
              else types
          end
      end
  end.

Definition extractFromTypeName (typeName : string) (types : list string)
  : list string :=
  extractFromTypeName_depth (S (String.length typeName)) typeName types.

(** [addTypeIfValid] *)
Definition addTypeIfValid (name : string) (types : list string)
  : list string :=
  if String.eqb name "" then types
  else if Js.has (Js.toLowerCase name) ELEMENTARY_TYPES then types
  else if Js.has name SKIP_NAMES then types
  else if String.length name <? 2 then types
  else if test interfaceName name then types
  else Js.add name types.

(** The patterns of [extractTypesFromBody], in the order of the source. *)
Definition varDeclPatterns : list regex := [
  (* /\b([A-Z][a-zA-Z0-9_]* )\s+(?:memory|storage|calldata)\s+\w+/g *)
  seq [RWordB; RGroup 1 capitalised; plus true s;
       RAlt (lit "memory") (RAlt (lit "storage") (lit "calldata"));
       plus true s; plus true w];
  (* /\b([A-Z][a-zA-Z0-9_]* )\s+\w+\s*[=;,)]/g *)
  seq [RWordB; RGroup 1 capitalised; plus true s; plus true w; star s;
       RSet false [("=", "="); (";", ";"); (",", ","); (")", ")")]%char] ].

(** [/\b([A-Z][a-zA-Z0-9_]* )\s*\(/g] *)
Definition structInstPattern : regex :=
  seq [RWordB; RGroup 1 capitalised; star s; RChr "("].

(** [/\b([A-Z][a-zA-Z0-9_]* )\.([A-Z][A-Z0-9_]* )\b/g] *)
Definition enumAccessPattern : regex :=
  seq [RWordB; RGroup 1 capitalised; RChr ".";
       RGroup 2 (RSeq upper
                   (star (RSet false [("A", "Z"); ("0", "9"); ("_", "_")]%char)));
       RWordB].

(** [/==\s*([A-Z][a-zA-Z0-9_]* )\.|\b([A-Z][a-zA-Z0-9_]* )\.\w+\s*[=!<>]/g] *)
Definition typeComparePattern : regex :=
  RAlt (seq [lit "=="; star s; RGroup 1 capitalised; RChr "."])
       (seq [RWordB; RGroup 2 capitalised; RChr "."; plus true w; star s;
             RSet false [("=", "="); ("!", "!"); ("<", "<"); (">", ">")]%char]).

(** [/\b([A-Z][a-zA-Z0-9_]* )\b/g] *)
Definition genericPattern : regex := seq [RWordB; RGroup 1 capitalised; RWordB].

(** One [while ((match = pattern.exec(sourceCode)) !== null)] loop whose
    body hands [pick match] to [addTypeIfValid]. *)
Definition addMatches (pattern : regex) (pick : result -> string)
  (sourceCode : string) (types : list string) : list string :=
  fold_left (fun acc m => addTypeIfValid (pick m) acc)
            (scan pattern sourceCode) types.

(** [match[1] || match[2]] *)
Definition group1_or_2 (m : result) : string :=
  if String.eqb (group 1 m) "" then group 2 m else group 1 m.

(** [extractTypesFromBody] *)
Definition extractTypesFromBody (sourceCode : string) (types : list string)
  : list string :=
  let types1 :=
    fold_left (fun acc pattern => addMatches pattern (group 1) sourceCode acc)
              varDeclPatterns types in
  let types2 := addMatches structInstPattern (group 1) sourceCode types1 in
  let types3 := addMatches enumAccessPattern (group 1) sourceCode types2 in
  let types4 := addMatches typeComparePattern group1_or_2 sourceCode types3 in
  fold_left
    (fun acc m =>
       let name := group 1 m in
       if String.eqb name (Js.toUpperCase name) && negb (Js.startsWith name "I")
       then acc
       else addTypeIfValid name acc)
    (scan genericPattern sourceCode) types4.

(** [extractAllTypeNames] *)
Definition extractAllTypeNames (functionInfo : FunctionInfo.t) : list string :=
  let types1 :=
    fold_left (fun acc param =>
                 extractFromTypeName (ParameterInfo.typeName param) acc)
              (FunctionInfo.parameters functionInfo) [] in
  let types2 :=
    fold_left (fun acc param =>
                 extractFromTypeName (ParameterInfo.typeName param) acc)
              (FunctionInfo.returnParameters functionInfo) types1 in
  extractTypesFromBody (FunctionInfo.fullSource functionInfo) types2.

(** [contractName && contract.name !== contractName] decides which
    contracts are passed over: a qualifier that is [null] or empty
    (falsy) passes over none. *)
Definition skipped (contractName : option string) (contract : ContractInfo.t)
  : bool :=
  match contractName with
  | Some q =>
      negb (String.eqb q "") && negb (String.eqb (ContractInfo.name contract) q)
  | None => false
  end.

(** The [name] of a reference: the type name, behind the qualifier and a
    dot when the qualifier is truthy. *)
Definition referenceName (contractName : option string) (typeName : string)
  : string :=
  match contractName with
  | Some q => if String.eqb q "" then typeName else (q ++ "." ++ typeName)%string
  | None => typeName
  end.

Definition findInContract (typeName : string) (contractName : option string)
  (contract : ContractInfo.t) : option TypeReference.t :=
  if skipped contractName contract then None
  else
    match find (fun st => String.eqb (StructInfo.name st) typeName)
               (ContractInfo.structs contract) with
    | Some st =>
        Some (TypeReference.mk (referenceName contractName typeName)
                               TStruct (Some (DStruct st)))
    | None =>
        match find (fun en => String.eqb (EnumInfo.name en) typeName)
                   (ContractInfo.enums contract) with
        | Some en =>
            Some (TypeReference.mk (referenceName contractName typeName)
                                   TEnum (Some (DEnum en)))
        | None => None
        end
    end.

(** [findTypeInFile] *)
Definition findTypeInFile (typeName : string) (contractName : option string)
  (file : ParsedFile.t) : option TypeReference.t :=
  first_some (findInContract typeName contractName) (ParsedFile.contracts file).

(** [parts.length > 1 ? parts[0] : null] *)
Definition qualifier (parts : list string) : option string :=
  if 1 <? List.length parts then Some (Js.first_part parts) else None.

(** [resolveType] *)
Definition resolveType (typeName : string) (currentFile : ParsedFile.t)
  (workspaceFiles : Workspace) : option TypeReference.t :=
  let parts := Js.split "." typeName in
  let localName := Js.last_part parts in
  let contractName := qualifier parts in
  match findTypeInFile localName contractName currentFile with
  | Some localResult => Some localResult
  | None =>
      first_some
        (fun entry =>
           if String.eqb (fst entry) (ParsedFile.filePath currentFile)
           then None
           else findTypeInFile localName contractName (snd entry))
        workspaceFiles
  end.

(** The loop of [resolveTypes]: [seenTypes] and [references] are the
    state. *)
Fixpoint resolveEach (typeNames : list string) (currentFile : ParsedFile.t)
  (workspaceFiles : Workspace) (seenTypes : list string)
  (references : list TypeReference.t) : list TypeReference.t :=
  match typeNames with
  | [] => references
  | typeName :: rest =>
      let normalizedName := Js.pop_or typeName in
      if Js.has normalizedName seenTypes
      then resolveEach rest currentFile workspaceFiles seenTypes references
      else
        let seenTypes' := Js.add normalizedName seenTypes in
        match resolveType typeName currentFile workspaceFiles with
        | Some reference =>
            match TypeReference.definition reference with
            | Some _ =>
                resolveEach rest currentFile workspaceFiles seenTypes'
                            (references ++ [reference])
            | None =>
                resolveEach rest currentFile workspaceFiles seenTypes' references
            end
        | None =>
            resolveEach rest currentFile workspaceFiles seenTypes' references
        end
  end.

(** [resolveTypes] *)
Definition resolveTypes (functionInfo : FunctionInfo.t)
  (currentFile : ParsedFile.t) (workspaceFiles : Workspace)
  : list TypeReference.t :=
  resolveEach (extractAllTypeNames functionInfo) currentFile workspaceFiles
              [] [].

(** [resolveSingleType] *)
Definition resolveSingleType (typeName : string) (workspaceFiles : Workspace)
  : option TypeReference.t :=
  let parts := Js.split "." typeName in
  let localName := Js.last_part parts in
  let contractName := qualifier parts in
  first_some (fun entry => findTypeInFile localName contractName (snd entry))
             workspaceFiles.

(** [typeExists] *)
Definition typeExists (typeName : string) (workspaceFiles : Workspace) : bool :=
  match resolveSingleType typeName workspaceFiles with
  | Some _ => true
  | None => false
  end.

End TypeResolver.

(* ================================================================== *)
(** ** Call-graph builder ([CallGraphBuilder]) *)
(* ================================================================== *)

Module CallGraphBuilder.
Import Regex.

Definition BUILTINS : list string := [
  "require"; "assert"; "revert"; "keccak256"; "sha256"; "sha3";
  "ripemd160"; "ecrecover"; "addmod"; "mulmod"; "selfdestruct";
  "blockhash"; "gasleft"; "type"; "abi";
  "push"; "pop"; "transfer"; "send"; "call";
  "delegatecall"; "staticcall"; "encode"; "encodePacked";
  "encodeWithSelector"; "encodeWithSignature"; "decode";
  "length"; "balance"; "code"; "codehash";
  "safeApprove"; "safeTransfer"; "safeTransferFrom"; "approve";
  "transferFrom"; "allowance"; "balanceOf"; "totalSupply";
  "mint"; "burn"; "deposit"; "withdraw"; "borrow"; "repay";
  "supply"; "claim"; "stake"; "unstake" ].

Definition TYPE_CASTS : list string := [
  "address"; "bool"; "string"; "bytes";
  "uint"; "int"; "uint8"; "uint16"; "uint24"; "uint32"; "uint40"; "uint48";
  "uint56"; "uint64"; "uint72"; "uint80"; "uint88"; "uint96"; "uint104";
  "uint112"; "uint120"; "uint128"; "uint136"; "uint144"; "uint152"; "uint160";
  "uint168"; "uint176"; "uint184"; "uint192"; "uint200"; "uint208"; "uint216";
  "uint224"; "uint232"; "uint240"; "uint248"; "uint256";
  "int8"; "int16"; "int24"; "int32"; "int40"; "int48"; "int56"; "int64";
  "int72"; "int80"; "int88"; "int96"; "int104"; "int112"; "int120"; "int128";
  "int136"; "int144"; "int152"; "int160"; "int168"; "int176"; "int184"; "int192";
  "int200"; "int208"; "int216"; "int224"; "int232"; "int240"; "int248"; "int256";
  "bytes1"; "bytes2"; "bytes3"; "bytes4"; "bytes5"; "bytes6"; "bytes7"; "bytes8";
  "bytes9"; "bytes10"; "bytes11"; "bytes12"; "bytes13"; "bytes14"; "bytes15";
  "bytes16"; "bytes17"; "bytes18"; "bytes19"; "bytes20"; "bytes21"; "bytes22";
  "bytes23"; "bytes24"; "bytes25"; "bytes26"; "bytes27"; "bytes28"; "bytes29";
  "bytes30"; "bytes31"; "bytes32" ].

Definition KEYWORDS : list string := [
  "if"; "else"; "for"; "while"; "do"; "return"; "emit"; "new"; "delete";
  "try"; "catch"; "break"; "continue" ].

Definition upper : regex := RSet false [("A", "Z")]%char.

(** [[a-z_][a-zA-Z0-9_]*] *)
Definition lowerName : regex :=
  RSeq (RSet false [("a", "z"); ("_", "_")]%char) (star w).

Definition notClose : regex := RSet true (one ")").

(** [isInterfaceCall]: [/^I[A-Z]/.test(name)], then the pattern made of
    [name] and [\s*\([^)]+\)]. *)
Definition isInterfaceCall (name line : string) : bool :=
  if test (seq [RBol; RChr "I"; upper]) name then
    test (seq [lit name; star s; RChr "("; plus true notClose; RChr ")"]) line
  else false.

(** [shouldSkipCall].  The three patterns are built from [name]:
    [I[A-Z][a-zA-Z0-9_]*\([^)]*\)\.NAME\s*\(], [\w+\.NAME\s*\(] and
    [([a-z_][a-zA-Z0-9_]* )\.NAME\s*\(]. *)
Definition shouldSkipCall (name expression line : string) : bool :=
  if Js.has name BUILTINS then true
  else if Js.has name KEYWORDS then true
  else if Js.has name TYPE_CASTS then true
  else if isInterfaceCall name line then true
  else if test (seq [RChr "I"; upper; star w; RChr "("; star notClose;
                     RChr ")"; RChr "."; lit name; star s; RChr "("]) line
  then true
  else if test (seq [plus true w; RChr "."; lit name; star s; RChr "("]) line
          && negb (Js.includes line ("this." ++ name)%string)
  then test (seq [RGroup 1 lowerName; RChr "."; lit name; star s; RChr "("])
            line
  else false.

(** [/(?<![.\w])([a-z_][a-zA-Z0-9_]* )\s*\(/g] *)
Definition directCallPattern : regex :=
  seq [RNotBehind (one "." ++ word); RGroup 1 lowerName; star s; RChr "("].

(** [/this\.([a-z_][a-zA-Z0-9_]* )\s*\(/g] *)
Definition thisCallPattern : regex :=
  seq [lit "this"; RChr "."; RGroup 1 lowerName; star s; RChr "("].

(** [/(?<![.\w])(_[a-zA-Z0-9_]+)\s*\(/g] *)
Definition internalCallPattern : regex :=
  seq [RNotBehind (one "." ++ word); RGroup 1 (RSeq (RChr "_") (plus true w));
       star s; RChr "("].

(** The key [lineNum:expression] of [seenCalls], kept as a pair. *)
Definition callKey : Type := (Z * string)%type.

Definition seen (key : callKey) (seenCalls : list callKey) : bool :=
  existsb (fun k => Z.eqb (fst k) (fst key) && String.eqb (snd k) (snd key))
          seenCalls.

(** One [while] loop over the matches of a pattern on a line; [calls] and
    [seenCalls] are the state; [expr name] is the call expression. *)
Definition scanLine (pattern : regex) (expr : string -> string)
  (line : string) (lineNum : Z)
  (state : list FunctionCallInfo.t * list callKey)
  : list FunctionCallInfo.t * list callKey :=
  fold_left
    (fun st m =>
       let name := group 1 m in
       let expression := expr name in
       let key := (lineNum, expression) in
       if seen key (snd st) then st
       else if shouldSkipCall name expression line then st
       else
         (fst st ++
            [FunctionCallInfo.mk name expression []
               (SourceLocation.mk
                  (Position.mk lineNum (Z.of_nat (m_start m)))
                  (Position.mk lineNum (Z.of_nat (index (m_end m)))))
               None],
          snd st ++ [key]))
    (scan pattern line) state.

(** The body of the loop over the lines, from line [lineNum] on. *)
Fixpoint scanLines (lines : list string) (lineNum : Z)
  (state : list FunctionCallInfo.t * list callKey)
  : list FunctionCallInfo.t * list callKey :=
  match lines with
  | [] => state
  | line :: rest =>
      let st1 := scanLine directCallPattern (fun n => n) line lineNum state in
      let st2 :=
        scanLine thisCallPattern (fun n => ("this." ++ n)%string)
                 line lineNum st1 in
      let st3 := scanLine internalCallPattern (fun n => n) line lineNum st2 in
      scanLines rest (lineNum + 1)%Z st3
  end.

(** [extractFunctionCalls] *)
Definition extractFunctionCalls (functionInfo : FunctionInfo.t)
  : list FunctionCallInfo.t :=
  let sourceCode := FunctionInfo.fullSource functionInfo in
  let lines := Js.split "010" sourceCode in
  fst (scanLines lines
         (Position.line
            (SourceLocation.start (FunctionInfo.location functionInfo)))
         ([], [])).

Definition findInContracts (functionName : string)
  (contracts : list ContractInfo.t) : option FunctionInfo.t :=
  first_some
    (fun contract =>
       find (fun func => String.eqb (FunctionInfo.name func) functionName)
            (ContractInfo.functions contract))
    contracts.

(** [findFunctionDefinition] *)
Definition findFunctionDefinition (name expression : string)
  (currentFile : ParsedFile.t) (workspaceFiles : Workspace)
  : option FunctionInfo.t :=
  let parts := Js.split "." expression in
  let functionName := Js.last_part parts in
  match findInContracts functionName (ParsedFile.contracts currentFile) with
  | Some func => Some func
  | None =>
      first_some
        (fun entry =>
           if String.eqb (fst entry) (ParsedFile.filePath currentFile)
           then None
           else findInContracts functionName (ParsedFile.contracts (snd entry)))
        workspaceFiles
  end.

(** [resolveFunctionCall]: the call with [resolvedFunction] replaced. *)
Definition resolveFunctionCall (call : FunctionCallInfo.t)
  (currentFile : ParsedFile.t) (workspaceFiles : Workspace)
  : FunctionCallInfo.t :=
  let resolvedFunction :=
    findFunctionDefinition (FunctionCallInfo.name call)
                           (FunctionCallInfo.expression call)
                           currentFile workspaceFiles in
  FunctionCallInfo.mk (FunctionCallInfo.name call)
                      (FunctionCallInfo.expression call)
                      (FunctionCallInfo.args call)
                      (FunctionCallInfo.location call)
                      resolvedFunction.

(** The loop of [buildCallGraph] over the extracted calls. *)
Fixpoint resolveCalls (calls : list FunctionCallInfo.t)
  (functionInfo : FunctionInfo.t) (currentFile : ParsedFile.t)
  (workspaceFiles : Workspace) (resolvedCalls : list FunctionCallInfo.t)
  : list FunctionCallInfo.t :=
  match calls with
  | [] => resolvedCalls
  | call :: rest =>
      if String.eqb (FunctionCallInfo.name call)
                    (FunctionInfo.name functionInfo)
      then resolveCalls rest functionInfo currentFile workspaceFiles
                        resolvedCalls
      else
        let resolved := resolveFunctionCall call currentFile workspaceFiles in
        match FunctionCallInfo.resolvedFunction resolved with
        | Some _ =>
            resolveCalls rest functionInfo currentFile workspaceFiles
                         (resolvedCalls ++ [resolved])
        | None =>
            resolveCalls rest functionInfo currentFile workspaceFiles
                         resolvedCalls
        end
  end.

(** [buildCallGraph] *)
Definition buildCallGraph (functionInfo : FunctionInfo.t)
  (currentFile : ParsedFile.t) (workspaceFiles : Workspace)
  : list FunctionCallInfo.t :=
  resolveCalls (extractFunctionCalls functionInfo) functionInfo currentFile
               workspaceFiles [].

(** [resolveSingleFunction] *)
Definition resolveSingleFunction (functionName : string)
  (workspaceFiles : Workspace) : option FunctionInfo.t :=
  let parts := Js.split "." functionName in
  let localName := Js.last_part parts in
  first_some
    (fun entry => findInContracts localName (ParsedFile.contracts (snd entry)))
    workspaceFiles.

(** [functionExists] *)
Definition functionExists (functionName : string) (workspaceFiles : Workspace)
  : bool :=
  match resolveSingleFunction functionName workspaceFiles with
  | Some _ => true
  | None => false
  end.

End CallGraphBuilder.

(* ================================================================== *)
(** ** State-variable resolver ([StateVariableResolver]) *)
(* ================================================================== *)

Module StateVariableResolver.
Import Regex.

(** [/\b([a-zA-Z_][a-zA-Z0-9_]* )\b/g] *)
Definition identifierPattern : regex :=
  seq [RWordB;
       RGroup 1 (RSeq (RSet false [("a", "z"); ("A", "Z"); ("_", "_")]%char)
                      (star w));
       RWordB].

(** The identifiers the scan of a source text meets, in order. *)
Definition identifiers (source : string) : list string :=
  map (group 1) (scan identifierPattern source).

(** [extractStateVariableReferences] *)
Definition extractStateVariableReferences (functionInfo : FunctionInfo.t)
  (currentContract : ContractInfo.t) : list string :=
  let source := FunctionInfo.fullSource functionInfo in
  let contractStateVars :=
    fold_left (fun acc sv => Js.add (StateVariableInfo.name sv) acc)
              (ContractInfo.stateVariables currentContract) [] in
  fold_left
    (fun stateVarNames identifier =>
       if Js.has identifier contractStateVars
       then Js.add identifier stateVarNames
       else stateVarNames)
    (identifiers source) [].

End StateVariableResolver.

(* ================================================================== *)
(** ** Inheritance resolver ([InheritanceResolver]) *)
(* ================================================================== *)

Module InheritanceResolver.

(** [Map.get], [Map.has] and [Map.set] on a map with string keys: [set]
    on a key that is there replaces the value and keeps the place. *)
Section StringMap.
Variable V : Type.

Fixpoint map_get (k : string) (m : list (string * V)) : option V :=
  match m with
  | [] => None
  | (k', v) :: m' => if String.eqb k' k then Some v else map_get k m'
  end.

Definition map_has (k : string) (m : list (string * V)) : bool :=
  match map_get k m with Some _ => true | None => false end.

Fixpoint map_set (k : string) (v : V) (m : list (string * V))
  : list (string * V) :=
  match m with
  | [] => [(k, v)]
  | (k', v') :: m' =>
      if String.eqb k' k then (k, v) :: m' else (k', v') :: map_set k v m'
  end.
End StringMap.

(** The three maps of the resolver. *)
Record t : Type := mk {
  contractMap : list (string * ContractInfo.t);
  inheritedBy : list (string * list string);
  inheritanceChains : list (string * list string) }.

(** First pass of [buildInheritanceGraph]: collect all contracts. *)
Definition collectContracts (workspaceFiles : Workspace)
  : list (string * ContractInfo.t) :=
  fold_left
    (fun cm entry =>
       fold_left (fun cm' contract =>
                    map_set (ContractInfo.name contract) contract cm')
                 (ParsedFile.contracts (snd entry)) cm)
    workspaceFiles [].

(** The body of the inner loop of the second pass: make the set of
    [baseName] if it is missing, then add [name] to it. *)
Definition addInheritor (name baseName : string)
  (ib : list (string * list string)) : list (string * list string) :=
  let ib1 := if map_has baseName ib then ib else map_set baseName [] ib in
  match map_get baseName ib1 with
  | Some inheritors => map_set baseName (Js.add name inheritors) ib1
  | None => ib1
  end.

(** Second pass: build inheritance relationships. *)
Definition collectInheritedBy (cm : list (string * ContractInfo.t))
  : list (string * list string) :=
  fold_left
    (fun ib entry =>
       fold_left (fun ib' baseName => addInheritor (fst entry) baseName ib')
                 (ContractInfo.baseContracts (snd entry)) ib)
    cm [].

(** The loop [for (const name of baseChain)] of [computeInheritanceChain]. *)
Definition appendNew (chain baseChain : list string) : list string :=
  fold_left (fun c name => if Js.has name c then c else c ++ [name])
            baseChain chain.

(** [computeInheritanceChain]; [n] bounds the depth of the recursion and
    [None] is what is left when it is used up, which
    [computeInheritanceChain_depth_enough] excludes for the bound that
    [computeInheritanceChain] takes. *)
Fixpoint computeInheritanceChain_depth (n : nat)
  (cm : list (string * ContractInfo.t)) (contractName : string)
  (visited : list string) : option (list string) :=
  match n with
  | 0 => None
  | S n' =>
      if Js.has contractName visited then Some []
      else
        let visited' := Js.add contractName visited in
        match map_get contractName cm with
        | Some contract =>
            fold_left
              (fun chain baseName =>
                 match chain with
                 | Some c =>
                     match computeInheritanceChain_depth n' cm baseName
                                                         visited' with
                     | Some baseChain => Some (appendNew c baseChain)
                     | None => None
                     end
                 | None => None
                 end)
              (ContractInfo.baseContracts contract) (Some [contractName])
        | None => Some [contractName]
        end
  end.

Definition computeInheritanceChain (cm : list (string * ContractInfo.t))
  (contractName : string) (visited : list string) : list string :=
  match computeInheritanceChain_depth (S (List.length cm)) cm contractName
                                      visited with
  | Some chain => chain
  | None => []
  end.

(** Third pass: compute linearized inheritance chains. *)
Definition collectChains (cm : list (string * ContractInfo.t))
  : list (string * list string) :=
  fold_left
    (fun chains entry =>
       map_set (fst entry) (computeInheritanceChain cm (fst entry) []) chains)
    cm [].

(** [buildInheritanceGraph] *)
Definition buildInheritanceGraph (workspaceFiles : Workspace) : t :=
  let cm := collectContracts workspaceFiles in
  mk cm (collectInheritedBy cm) (collectChains cm).

(** [collectInheritors], the closure inside [getImplementingContracts];
    [result] is the set it fills.  The recursion has no guard of its own:
    [n] is the depth of call stack at hand and [None] is the recursion
    going deeper than that. *)
Fixpoint collectInheritors (n : nat) (g : t) (name : string)
  (result : list string) : option (list string) :=
  match n with
  | 0 => None
  | S n' =>
      match map_get name (inheritedBy g) with
      | Some inheritors =>
          fold_left
            (fun acc inheritor =>
               match acc with
               | Some r => collectInheritors n' g inheritor (Js.add inheritor r)
               | None => None
               end)
            inheritors (Some result)
      | None => Some result
      end
  end.

(** [getImplementingContracts], given a call stack of depth [n]. *)
Definition getImplementingContracts (n : nat) (g : t) (interfaceName : string)
  : option (list string) :=
  collectInheritors n g interfaceName [].

(** [func.body && func.body.trim() !== ''] *)
Definition hasBody (func : FunctionInfo.t) : bool :=
  negb (String.eqb (FunctionInfo.body func) "")
  && negb (String.eqb (Js.trim (FunctionInfo.body func)) "").

(** The body of the loop of [findMethodInContract] for one link [name] of
    the chain. *)
Definition implementationAt (g : t) (contractName methodName : string)
  (chain : list string) (name : string) : option ImplementationInfo.t :=
  match map_get name (contractMap g) with
  | None => None
  | Some contract =>
      if is_interface (ContractInfo.kind contract) then None
      else
        match find (fun f => String.eqb (FunctionInfo.name f) methodName)
                   (ContractInfo.functions contract) with
        | Some func =>
            if hasBody func then
              Some (ImplementationInfo.mk
                      name (ContractInfo.kind contract) func
                      (ContractInfo.filePath contract)
                      (negb (String.eqb name contractName))
                      chain)
            else None
        | None => None
        end
  end.

(** [findMethodInContract] *)
Definition findMethodInContract (g : t) (contractName methodName : string)
  : option ImplementationInfo.t :=
  let chain :=
    match map_get contractName (inheritanceChains g) with
    | Some c => c
    | None => [contractName]
    end in
  first_some (implementationAt g contractName methodName chain) chain.

(** [findImplementations], given a call stack of depth [n]. *)
Definition findImplementations (n : nat) (g : t)
  (interfaceName methodName : string) : option (list ImplementationInfo.t) :=
  match getImplementingContracts n g interfaceName with
  | None => None
  | Some implementingContracts =>
      Some
        (fold_left
           (fun implementations contractName =>
              match map_get contractName (contractMap g) with
              | None => implementations
              | Some contract =>
                  if is_interface (ContractInfo.kind contract)
                  then implementations
                  else
                    match findMethodInContract g contractName methodName with
                    | Some impl => implementations ++ [impl]
                    | None => implementations
                    end
              end)
           implementingContracts [])
  end.

End InheritanceResolver.

(* ================================================================== *)
(** ** AST walker ([ASTTraverser]) *)
(* ================================================================== *)

Module ASTTraverser.

(** The values found in a syntax tree.  [JNull] is [null] or [undefined]
    (also a property that is absent); [JObj type loc props] is an object
    with its [type] tag, if any, its [loc], if any, and its other own
    properties in the order of [Object.keys].  An [ASTNode] is an object
    with a tag.  Trees are finite and their objects are plain data. *)
#[local] Unset Elimination Schemes.
Inductive JsValue : Type :=
| JNull
| JBool (b : bool)
| JNum (z : Z)
| JStr (t : string)
| JArr (items : list JsValue)
| JObj (type : option string) (loc : option SourceLocation.t)
       (props : list (string * JsValue)).
#[local] Set Elimination Schemes.

(** Truthiness. *)
Definition truthy (v : JsValue) : bool :=
  match v with
  | JNull => false
  | JBool b => b
  | JNum z => negb (Z.eqb z 0)
  | JStr t => negb (String.eqb t "")
  | JArr _ => true
  | JObj _ _ _ => true
  end.

(** [v === true] *)
Definition is_true (v : JsValue) : bool :=
  match v with JBool true => true | _ => false end.

(** [v && typeof v === 'object' && v.type] *)
Definition is_node (v : JsValue) : bool :=
  match v with
  | JObj (Some t) _ _ => negb (String.eqb t "")
  | _ => false
  end.

(** The key [node.type] looks up in the visitor. *)
Definition type_key (v : JsValue) : string :=
  match v with
  | JObj (Some t) _ _ => t
  | _ => "undefined"
  end.

Definition loc_of (v : JsValue) : option SourceLocation.t :=
  match v with
  | JObj _ l _ => l
  | _ => None
  end.

(** How [traverseChildren] reaches into a property: [traverseArray] of
    it, [traverse] of it, or [traverse] of it if it is truthy. *)
Inductive slot : Type :=
| SArr (key : string)
| SOne (key : string)
| SOpt (key : string).

(** The [switch] of [traverseChildren]: the properties visited for each
    node type, in order; [None] is the [default] branch. *)
Definition child_slots (nodeType : string) : option (list slot) :=
  if String.eqb nodeType "SourceUnit" then Some [SArr "children"]
  else if String.eqb nodeType "ContractDefinition"
  then Some [SArr "baseContracts"; SArr "subNodes"]
  else if String.eqb nodeType "FunctionDefinition"
  then Some [SArr "parameters"; SArr "returnParameters"; SArr "modifiers";
             SOpt "body"]
  else if String.eqb nodeType "ModifierDefinition"
  then Some [SArr "parameters"; SOpt "body"]
  else if String.eqb nodeType "VariableDeclaration"
  then Some [SOpt "typeName"; SOpt "expression"]
  else if String.eqb nodeType "StructDefinition" then Some [SArr "members"]
  else if String.eqb nodeType "Block" then Some [SArr "statements"]
  else if String.eqb nodeType "IfStatement"
  then Some [SOne "condition"; SOne "trueBody"; SOpt "falseBody"]
  else if String.eqb nodeType "WhileStatement"
       || String.eqb nodeType "DoWhileStatement"
  then Some [SOne "condition"; SOne "body"]
  else if String.eqb nodeType "ForStatement"
  then Some [SOpt "initExpression"; SOpt "conditionExpression";
             SOpt "loopExpression"; SOne "body"]
  else if String.eqb nodeType "TryStatement"
  then Some [SOne "expression"; SArr "returnParameters"; SOne "body";
             SArr "catchClauses"]
  else if String.eqb nodeType "CatchClause"
  then Some [SArr "parameters"; SOne "body"]
  else if String.eqb nodeType "ReturnStatement"
       || String.eqb nodeType "EmitStatement"
       || String.eqb nodeType "RevertStatement"
  then Some [SOpt "expression"]
  else if String.eqb nodeType "ExpressionStatement"
  then Some [SOpt "expression"]
  else if String.eqb nodeType "VariableDeclarationStatement"
  then Some [SArr "variables"; SOpt "initialValue"]
  else if String.eqb nodeType "FunctionCall"
  then Some [SOne "expression"; SArr "arguments"; SArr "names"]
  else if String.eqb nodeType "MemberAccess" then Some [SOne "expression"]
  else if String.eqb nodeType "IndexAccess"
  then Some [SOne "base"; SOpt "index"]
  else if String.eqb nodeType "BinaryOperation"
       || String.eqb nodeType "Assignment"
  then Some [SOne "left"; SOne "right"]
  else if String.eqb nodeType "UnaryOperation"
  then Some [SOne "subExpression"]
  else if String.eqb nodeType "Conditional"
  then Some [SOne "condition"; SOne "trueExpression"; SOne "falseExpression"]
  else if String.eqb nodeType "TupleExpression" then Some [SArr "components"]
  else if String.eqb nodeType "ArrayTypeName"
  then Some [SOne "baseTypeName"; SOpt "length"]
  else if String.eqb nodeType "Mapping"
  then Some [SOne "keyType"; SOne "valueType"]
  else if String.eqb nodeType "NewExpression" then Some [SOne "typeName"]
  else if String.eqb nodeType "ModifierInvocation"
  then Some [SArr "arguments"]
  else if String.eqb nodeType "InheritanceSpecifier"
  then Some [SOne "baseName"; SArr "arguments"]
  else if String.eqb nodeType "UsingForDeclaration"
  then Some [SOpt "typeName"]
  else if String.eqb nodeType "StateVariableDeclaration"
  then Some [SArr "variables"; SOpt "initialValue"]
  else if String.eqb nodeType "EventDefinition" then Some [SArr "parameters"]
  else if String.eqb nodeType "ErrorDefinition" then Some [SArr "parameters"]
  else if Js.has nodeType
            ["Identifier"; "NumberLiteral"; "StringLiteral"; "BooleanLiteral";
             "HexLiteral"; "ElementaryTypeName"; "UserDefinedTypeName";
             "PragmaDirective"; "ImportDirective"; "EnumValue";
             "BreakStatement"; "ContinueStatement"; "PlaceholderStatement";
             "AssemblyBlock"; "UncheckedStatement"]
  then Some []
  else None.

(** A traversal ends, or throws a [TypeError] (a property of [undefined]
    is read, or a value that cannot be iterated is iterated). *)
Inductive outcome (S : Type) : Type :=
| Done (s : S)
| Thrown.
Arguments Thrown {S}.

Definition and_then {S : Type} (o : outcome S) (k : S -> outcome S)
  : outcome S :=
  match o with
  | Done s => k s
  | Thrown => Thrown
  end.

Section Walk.
(** The callbacks of a visitor are closures over variables they update:
    [S] is the type of those variables.  A callback gets the node and
    its parent and gives back what it returns.  A visitor is the table
    of its own properties. *)
Variable S : Type.

Definition VisitorCallback : Type :=
  JsValue -> option JsValue -> S -> JsValue * S.

Definition ASTVisitor : Type := string -> option VisitorCallback.

Variable visitor : ASTVisitor.

(** The walker used on the values below a node; [traverse] ties the
    knot. *)
Variable walk : JsValue -> option JsValue -> S -> outcome S.

(** The loop of [traverseArray] over the elements. *)
Fixpoint each (items : list JsValue) (parent : JsValue) (s : S)
  : outcome S :=
  match items with
  | [] => Done s
  | node :: rest =>
      if is_node node
      then and_then (walk node (Some parent) s) (each rest parent)
      else each rest parent s
  end.

(** [traverseArray]: nothing on a falsy value, the elements of an
    array, nothing on a string (its characters are no objects), and a
    [TypeError] on what cannot be iterated. *)
Definition traverseArray_on (nodes : JsValue) (parent : JsValue) (s : S)
  : outcome S :=
  match nodes with
  | JArr items => each items parent s
  | JStr _ => Done s
  | JObj _ _ _ => Thrown
  | JNull => Done s
  | JBool b => if b then Thrown else Done s
  | JNum z => if Z.eqb z 0 then Done s else Thrown
  end.

(** One access of the [switch], on the value [v] of the property. *)
Definition visit_value (sl : slot) (v : JsValue) (parent : JsValue) (s : S)
  : outcome S :=
  match sl with
  | SArr _ => traverseArray_on v parent s
  | SOne _ => walk v (Some parent) s
  | SOpt _ => if truthy v then walk v (Some parent) s else Done s
  end.

Definition slot_key (sl : slot) : string :=
  match sl with SArr k | SOne k | SOpt k => k end.

(** The same on a property that is absent, [undefined]: nothing for
    [traverseArray] and for the guarded [traverse], and the [TypeError]
    of [traverse] reading the [type] of [undefined]. *)
Definition visit_absent (sl : slot) (s : S) : outcome S :=
  match sl with
  | SArr _ => Done s
  | SOne _ => Thrown
  | SOpt _ => Done s
  end.

(** One access of the [switch]: look the property up. *)
Fixpoint visit_slot (sl : slot) (props : list (string * JsValue))
  (parent : JsValue) (s : S) : outcome S :=
  match props with
  | [] => visit_absent sl s
  | (k, v) :: rest =>
      if String.eqb k (slot_key sl) then visit_value sl v parent s
      else visit_slot sl rest parent s
  end.

(** The accesses of one branch of the [switch], in order. *)
Definition visit_slots (props : list (string * JsValue)) (parent : JsValue)
  : list slot -> S -> outcome S :=
  fix go (sls : list slot) (s : S) : outcome S :=
    match sls with
    | [] => Done s
    | sl :: rest => and_then (visit_slot sl props parent s) (go rest)
    end.

(** The [default] branch on one value: [traverseArray] of an array,
    [traverse] of a node, nothing otherwise. *)
Definition scan_value (v : JsValue) (parent : JsValue) (s : S) : outcome S :=
  match v with
  | JArr items => each items parent s
  | _ => if is_node v then walk v (Some parent) s else Done s
  end.

Fixpoint scan_props (props : list (string * JsValue)) (parent : JsValue)
  (s : S) : outcome S :=
  match props with
  | [] => Done s
  | (_, v) :: rest =>
      and_then (scan_value v parent s) (scan_props rest parent)
  end.

Fixpoint scan_items (items : list JsValue) (parent : JsValue) (s : S)
  : outcome S :=
  match items with
  | [] => Done s
  | v :: rest => and_then (scan_value v parent s) (scan_items rest parent)
  end.

(** [traverseChildren] *)
Definition traverseChildren_on (node : JsValue) (s : S) : outcome S :=
  match node with
  | JObj (Some t) _ props =>
      match child_slots t with
      | Some sls => visit_slots props node sls s
      | None => scan_props props node s
      end
  | JObj None _ props => scan_props props node s
  | JArr items => scan_items items node s
  | _ => Done s
  end.

(** [traverse], given the walker for the values below. *)
Definition traverse_on (node : JsValue) (parent : option JsValue) (s : S)
  : outcome S :=
  match node with
  | JNull => Thrown
  | _ =>
      match visitor (type_key node) with
      | Some callback =>
          let (shouldStop, s') := callback node parent s in
          if is_true shouldStop then Done s'
          else traverseChildren_on node s'
      | None => traverseChildren_on node s
      end
  end.
End Walk.

(** [traverse] *)
Fixpoint traverse (S : Type) (visitor : ASTVisitor S) (node : JsValue)
  (parent : option JsValue) (s : S) {struct node} : outcome S :=
  traverse_on visitor (traverse visitor) node parent s.

(** [traverseChildren] and [traverseArray] *)
Definition traverseChildren (S : Type) (visitor : ASTVisitor S)
  (node : JsValue) (s : S) : outcome S :=
  traverseChildren_on (traverse visitor) node s.

Definition traverseArray (S : Type) (visitor : ASTVisitor S)
  (nodes : JsValue) (parent : JsValue) (s : S) : outcome S :=
  traverseArray_on (traverse visitor) nodes parent s.


(** [findFirst]: the callback keeps the node and returns [true]. *)
Definition findFirst (node : JsValue) (nodeType : string)
  : outcome (option JsValue) :=
  traverse
    (fun key =>
       if String.eqb key nodeType
       then Some (fun n _ _ => (JBool true, Some n))
       else None)
    node None None.

(** The test of [findAtPosition] that a span holds a position. *)
Definition contains (line column : Z) (loc : SourceLocation.t) : bool :=
  let st := SourceLocation.start loc in
  let en := SourceLocation.finish loc in
  (Position.line st <=? line)%Z
  && (line <=? Position.line en)%Z
  && ((Position.line st <? line)%Z || (Position.column st <=? column)%Z)
  && ((line <? Position.line en)%Z || (column <=? Position.column en)%Z).

(** [(loc.end.line - loc.start.line) * 1000
     + (loc.end.column - loc.start.column)] *)
Definition range (loc : SourceLocation.t) : Z :=
  let st := SourceLocation.start loc in
  let en := SourceLocation.finish loc in
  ((Position.line en - Position.line st) * 1000
   + (Position.column en - Position.column st))%Z.

(** [range < smallestRange], where [None] is [Infinity]. *)
Definition below (r : Z) (smallestRange : option Z) : bool :=
  match smallestRange with
  | Some m => (r <? m)%Z
  | None => true
  end.

(** The callback of [findAtPosition] for [FunctionDefinition]; the state
    is [result] and [smallestRange]. *)
Definition atPosition (line column : Z) (n : JsValue)
  (st : option JsValue * option Z) : option JsValue * option Z :=
  match loc_of n with
  | Some loc =>
      if contains line column loc then
        if below (range loc) (snd st) then (Some n, Some (range loc)) else st
      else st
  | None => st
  end.


End ASTTraverser.

(* ================================================================== *)
(** * Properties *)
(* ================================================================== *)

(** ** Strings, sets and first matches *)

Lemma has_In (x : string) (l : list string) : Js.has x l = true <-> In x l.
Proof.
  unfold Js.has. rewrite existsb_exists. split.
  - intros [y [Hy He]]. apply String.eqb_eq in He. now subst.
  - intros H. exists x. split; [assumption | apply String.eqb_refl].
Qed.

Lemma has_false_In (x : string) (l : list string) :
  Js.has x l = false <-> ~ In x l.
Proof.
  rewrite <- has_In. destruct (Js.has x l); split; congruence.
Qed.

Lemma add_In (x y : string) (l : list string) :
  In y (Js.add x l) <-> y = x \/ In y l.
Proof.
  unfold Js.add. destruct (Js.has x l) eqn:E.
  - apply has_In in E. split; [now right | intros [-> | H]; assumption].
  - rewrite in_app_iff. simpl. intuition congruence.
Qed.

Lemma add_NoDup (x : string) (l : list string) :
  NoDup l -> NoDup (Js.add x l).
Proof.
  intros H. unfold Js.add. destruct (Js.has x l) eqn:E; [assumption |].
  apply has_false_In in E.
  apply NoDup_rev in H. rewrite <- (rev_involutive (l ++ [x])).
  apply NoDup_rev. rewrite rev_app_distr. simpl. constructor; [| assumption].
  now rewrite <- in_rev.
Qed.

Lemma chars_app (a b : string) :
  Js.chars (a ++ b)%string = Js.chars a ++ Js.chars b.
Proof.
  unfold Js.chars. induction a as [| c a IH]; simpl; [reflexivity |].
  now rewrite IH.
Qed.

Lemma str_chars (t : string) : Js.str (Js.chars t) = t.
Proof. apply string_of_list_ascii_of_string. Qed.

(** A name without a dot: an identifier, not a qualified name. *)
Definition dotless (t : string) : bool :=
  forallb (fun c => negb (Ascii.eqb c ".")) (Js.chars t).

Lemma split_chars_not_nil (sep : ascii) (l cur : list ascii) :
  Js.split_chars sep cur l <> [].
Proof.
  revert cur. induction l as [| c l IH]; intros cur; simpl; [discriminate |].
  destruct (Ascii.eqb c sep); [discriminate | apply IH].
Qed.

Lemma last_cons_not_nil (A : Type) (x d : A) (l : list A) :
  l <> [] -> last (x :: l) d = last l d.
Proof. destruct l; [congruence | reflexivity]. Qed.

(** What follows the last separator decides the last part. *)
Lemma last_split_chars_app (sep : ascii) (l1 l2 cur : list ascii) :
  last (Js.split_chars sep cur (l1 ++ sep :: l2)) ""
  = last (Js.split_chars sep [] l2) "".
Proof.
  revert cur. induction l1 as [| c l1 IH]; intros cur; simpl.
  - rewrite Ascii.eqb_refl.
    apply last_cons_not_nil, split_chars_not_nil.
  - destruct (Ascii.eqb c sep).
    + rewrite last_cons_not_nil by apply split_chars_not_nil. apply IH.
    + apply IH.
Qed.

Lemma split_chars_prefix (sep : ascii) (l1 l2 cur : list ascii) :
  forallb (fun c => negb (Ascii.eqb c sep)) l1 = true ->
  Js.split_chars sep cur (l1 ++ sep :: l2)
  = Js.str (rev cur ++ l1) :: Js.split_chars sep [] l2.
Proof.
  revert cur. induction l1 as [| c l1 IH]; intros cur H; simpl in *.
  - rewrite Ascii.eqb_refl, app_nil_r. reflexivity.
  - apply andb_true_iff in H as [Hc H].
    apply negb_true_iff in Hc. rewrite Hc, IH by assumption.
    simpl. now rewrite <- app_assoc.
Qed.

Lemma split_chars_plain (sep : ascii) (l cur : list ascii) :
  forallb (fun c => negb (Ascii.eqb c sep)) l = true ->
  Js.split_chars sep cur l = [Js.str (rev cur ++ l)].
Proof.
  revert cur. induction l as [| c l IH]; intros cur H; simpl in *.
  - now rewrite app_nil_r.
  - apply andb_true_iff in H as [Hc H].
    apply negb_true_iff in Hc. rewrite Hc, IH by assumption.
    simpl. now rewrite <- app_assoc.
Qed.

Lemma split_dotless (t : string) :
  dotless t = true -> Js.split "." t = [t].
Proof.
  intros H. unfold Js.split. rewrite split_chars_plain by exact H.
  simpl. now rewrite str_chars.
Qed.

Lemma split_qualified (x t : string) :
  dotless x = true -> dotless t = true ->
  Js.split "." (x ++ "." ++ t) = [x; t].
Proof.
  intros Hx Ht. unfold Js.split. rewrite chars_app. simpl.
  rewrite split_chars_prefix by exact Hx.
  rewrite split_chars_plain by exact Ht.
  simpl. now rewrite !str_chars.
Qed.

Lemma last_part_qualified (x t : string) :
  Js.last_part (Js.split "." (x ++ "." ++ t))
  = Js.last_part (Js.split "." t).
Proof.
  unfold Js.last_part, Js.split. rewrite chars_app. simpl.
  apply last_split_chars_app.
Qed.

Lemma first_some_ext (A B : Type) (f g : A -> option B) (l : list A) :
  (forall x, In x l -> f x = g x) -> first_some f l = first_some g l.
Proof.
  induction l as [| x l IH]; intros H; simpl; [reflexivity |].
  rewrite (H x) by now left.
  destruct (g x); [reflexivity |]. apply IH. intros y Hy. apply H. now right.
Qed.

Lemma first_some_none (A B : Type) (f : A -> option B) (l : list A) :
  (forall x, In x l -> f x = None) -> first_some f l = None.
Proof.
  induction l as [| x l IH]; intros H; simpl; [reflexivity |].
  rewrite (H x) by now left. apply IH. intros y Hy. apply H. now right.
Qed.

(** A first match is the head of the list of all matches. *)
Lemma first_some_flat_map (A B : Type) (f : A -> option B)
  (g : A -> list B) (l : list A) :
  (forall x, f x = hd_error (g x)) ->
  first_some f l = hd_error (flat_map g l).
Proof.
  intros H. induction l as [| x l IH]; simpl; [reflexivity |].
  rewrite H. destruct (g x); simpl; [exact IH | reflexivity].
Qed.

Lemma find_hd_filter (A : Type) (p : A -> bool) (l : list A) :
  find p l = hd_error (filter p l).
Proof.
  induction l as [| x l IH]; simpl; [reflexivity |].
  destruct (p x); [reflexivity | exact IH].
Qed.

Lemma find_app (A : Type) (p : A -> bool) (l1 l2 : list A) :
  find p (l1 ++ l2)
  = match find p l1 with Some x => Some x | None => find p l2 end.
Proof.
  induction l1 as [| x l1 IH]; simpl; [reflexivity |].
  destruct (p x); [reflexivity | exact IH].
Qed.

Lemma find_none_iff (A : Type) (p : A -> bool) (l : list A) :
  find p l = None <-> forall x, In x l -> p x = false.
Proof.
  split; [apply find_none |].
  induction l as [| x l IH]; intros H; simpl; [reflexivity |].
  rewrite (H x) by now left. apply IH. intros y Hy. apply H. now right.
Qed.

(** The contracts and the functions of a workspace, in iteration order. *)
Definition all_contracts (workspaceFiles : Workspace) : list ContractInfo.t :=
  flat_map (fun entry => ParsedFile.contracts (snd entry)) workspaceFiles.

Definition all_functions (workspaceFiles : Workspace) : list FunctionInfo.t :=
  flat_map ContractInfo.functions (all_contracts workspaceFiles).

(* ------------------------------------------------------------------ *)
(** ** Call graph: only resolved calls, never the function itself *)
(* ------------------------------------------------------------------ *)

Section CallGraph.
Import CallGraphBuilder.

Definition kept (functionInfo : FunctionInfo.t) (call : FunctionCallInfo.t)
  : Prop :=
  FunctionCallInfo.resolvedFunction call <> None
  /\ FunctionCallInfo.name call <> FunctionInfo.name functionInfo.

Lemma resolveCalls_kept (functionInfo : FunctionInfo.t)
  (currentFile : ParsedFile.t) (workspaceFiles : Workspace)
  (calls resolvedCalls : list FunctionCallInfo.t) :
  Forall (kept functionInfo) resolvedCalls ->
  Forall (kept functionInfo)
         (resolveCalls calls functionInfo currentFile workspaceFiles
                       resolvedCalls).
Proof.
  revert resolvedCalls.
  induction calls as [| call rest IH]; intros acc Hacc; simpl;
    [assumption |].
  destruct (String.eqb (FunctionCallInfo.name call)
                       (FunctionInfo.name functionInfo)) eqn:Eself.
  - now apply IH.
  - destruct (findFunctionDefinition (FunctionCallInfo.name call)
                (FunctionCallInfo.expression call) currentFile
                workspaceFiles) eqn:Efound.
    + apply IH. apply Forall_app. split; [assumption |].
      constructor; [| constructor].
      split; simpl.
      * rewrite Efound. discriminate.
      * now apply String.eqb_neq.
    + now apply IH.
Qed.

(** C1.  Every entry of the list [buildCallGraph] returns for a function
    [F] has a [resolvedFunction] that is not null, and none has the name
    of [F]. *)
Theorem buildCallGraph_resolved_and_no_self_edge
  (functionInfo : FunctionInfo.t) (currentFile : ParsedFile.t)
  (workspaceFiles : Workspace) :
  Forall
    (fun call =>
       FunctionCallInfo.resolvedFunction call <> None
       /\ FunctionCallInfo.name call <> FunctionInfo.name functionInfo)
    (buildCallGraph functionInfo currentFile workspaceFiles).
Proof.
  unfold buildCallGraph.
  apply resolveCalls_kept. constructor.
Qed.

Lemma findInContracts_find (functionName : string)
  (contracts : list ContractInfo.t) :
  findInContracts functionName contracts
  = find (fun func => String.eqb (FunctionInfo.name func) functionName)
         (flat_map ContractInfo.functions contracts).
Proof.
  unfold findInContracts. rewrite find_hd_filter.
  rewrite (first_some_flat_map _
             (fun c => filter
                         (fun func =>
                            String.eqb (FunctionInfo.name func) functionName)
                         (ContractInfo.functions c))).
  - f_equal. induction contracts as [| c cs IH]; simpl; [reflexivity |].
    now rewrite filter_app, IH.
  - intros c. apply find_hd_filter.
Qed.

(** A point query for a function looks at the last part of the name
    only and walks every function of the workspace in order. *)
Lemma resolveSingleFunction_find (functionName : string)
  (workspaceFiles : Workspace) :
  resolveSingleFunction functionName workspaceFiles
  = find (fun func =>
            String.eqb (FunctionInfo.name func)
                       (Js.last_part (Js.split "." functionName)))
         (all_functions workspaceFiles).
Proof.
  unfold resolveSingleFunction, all_functions, all_contracts.
  set (localName := Js.last_part (Js.split "." functionName)).
  induction workspaceFiles as [| entry rest IH]; simpl; [reflexivity |].
  rewrite flat_map_app, find_app, findInContracts_find, IH.
  reflexivity.
Qed.
End CallGraph.

(* ------------------------------------------------------------------ *)
(** ** Type resolution: search order, first match, qualifiers *)
(* ------------------------------------------------------------------ *)

Section TypeResolution.
Import TypeResolver.

(** The files a candidate is looked up in, in order: the file of the
    function, then the entries of the index whose key is not the path
    of that file. *)
Definition searchOrder (currentFile : ParsedFile.t)
  (workspaceFiles : Workspace) : list ParsedFile.t :=
  currentFile
    :: map snd
         (filter (fun entry =>
                    negb (String.eqb (fst entry)
                                     (ParsedFile.filePath currentFile)))
                 workspaceFiles).

(** A qualifier restricts the search when it is there and not empty. *)
Definition admits (contractName : option string) (contract : ContractInfo.t)
  : bool :=
  match contractName with
  | Some q =>
      String.eqb q "" || String.eqb (ContractInfo.name contract) q
  | None => true
  end.

(** Every struct and then every enum called [typeName] of the contracts
    of a file that the qualifier admits, as references. *)
Definition definitionsNamed (typeName : string)
  (contractName : option string) (file : ParsedFile.t)
  : list TypeReference.t :=
  flat_map
    (fun contract =>
       if admits contractName contract then
         map (fun st =>
                TypeReference.mk (referenceName contractName typeName)
                                 TStruct (Some (DStruct st)))
             (filter (fun st => String.eqb (StructInfo.name st) typeName)
                     (ContractInfo.structs contract))
         ++
         map (fun en =>
                TypeReference.mk (referenceName contractName typeName)
                                 TEnum (Some (DEnum en)))
             (filter (fun en => String.eqb (EnumInfo.name en) typeName)
                     (ContractInfo.enums contract))
       else [])
    (ParsedFile.contracts file).

Lemma skipped_admits (contractName : option string)
  (contract : ContractInfo.t) :
  skipped contractName contract = negb (admits contractName contract).
Proof.
  unfold skipped, admits. destruct contractName as [q |]; [| reflexivity].
  now rewrite negb_orb.
Qed.

Lemma hd_error_map (A B : Type) (f : A -> B) (l : list A) :
  hd_error (map f l) = option_map f (hd_error l).
Proof. destruct l; reflexivity. Qed.

Lemma findTypeInFile_first (typeName : string)
  (contractName : option string) (file : ParsedFile.t) :
  findTypeInFile typeName contractName file
  = hd_error (definitionsNamed typeName contractName file).
Proof.
  unfold findTypeInFile, definitionsNamed.
  apply first_some_flat_map. intros contract.
  unfold findInContract. rewrite skipped_admits.
  destruct (admits contractName contract); simpl; [| reflexivity].
  rewrite !find_hd_filter.
  destruct (filter _ (ContractInfo.structs contract)) as [| st sts];
    simpl; [| reflexivity].
  destruct (filter _ (ContractInfo.enums contract)); reflexivity.
Qed.

Lemma resolveType_first (typeName : string) (currentFile : ParsedFile.t)
  (workspaceFiles : Workspace) :
  resolveType typeName currentFile workspaceFiles
  = hd_error
      (flat_map
         (definitionsNamed (Js.last_part (Js.split "." typeName))
                           (qualifier (Js.split "." typeName)))
         (searchOrder currentFile workspaceFiles)).
Proof.
  unfold resolveType, searchOrder. simpl.
  set (localName := Js.last_part (Js.split "." typeName)).
  set (contractName := qualifier (Js.split "." typeName)).
  rewrite findTypeInFile_first.
  destruct (definitionsNamed localName contractName currentFile);
    simpl; [| reflexivity].
  induction workspaceFiles as [| entry rest IH]; simpl; [reflexivity |].
  destruct (String.eqb (fst entry) (ParsedFile.filePath currentFile));
    simpl; [exact IH |].
  rewrite findTypeInFile_first.
  destruct (definitionsNamed localName contractName (snd entry));
    simpl; [exact IH | reflexivity].
Qed.

Lemma resolveType_defined (typeName : string) (currentFile : ParsedFile.t)
  (workspaceFiles : Workspace) (reference : TypeReference.t) :
  resolveType typeName currentFile workspaceFiles = Some reference ->
  TypeReference.definition reference <> None.
Proof.
  rewrite resolveType_first. intros H.
  assert (Hin : In reference
                   (flat_map
                      (definitionsNamed
                         (Js.last_part (Js.split "." typeName))
                         (qualifier (Js.split "." typeName)))
                      (searchOrder currentFile workspaceFiles))).
  { destruct (flat_map _ _); simpl in H; [discriminate |].
    injection H as ->. now left. }
  apply in_flat_map in Hin as [file [_ Hin]].
  unfold definitionsNamed in Hin.
  apply in_flat_map in Hin as [contract [_ Hin]].
  destruct (admits _ contract); [| contradiction].
  apply in_app_iff in Hin as [Hin | Hin];
    apply in_map_iff in Hin as [d [<- _]]; discriminate.
Qed.

(** The candidates [resolveTypes] takes up: the first of each group that
    shares the part after the last dot ([seenTypes] holds the parts met
    so far). *)
Fixpoint distinctCandidates (typeNames seenTypes : list string)
  : list string :=
  match typeNames with
  | [] => []
  | typeName :: rest =>
      if Js.has (Js.pop_or typeName) seenTypes
      then distinctCandidates rest seenTypes
      else typeName
             :: distinctCandidates rest
                  (Js.add (Js.pop_or typeName) seenTypes)
  end.

Definition resolved (currentFile : ParsedFile.t) (workspaceFiles : Workspace)
  (typeName : string) : list TypeReference.t :=
  match resolveType typeName currentFile workspaceFiles with
  | Some reference => [reference]
  | None => []
  end.

Lemma resolveEach_flat_map (currentFile : ParsedFile.t)
  (workspaceFiles : Workspace) (typeNames seenTypes : list string)
  (references : list TypeReference.t) :
  resolveEach typeNames currentFile workspaceFiles seenTypes references
  = references
      ++ flat_map (resolved currentFile workspaceFiles)
                  (distinctCandidates typeNames seenTypes).
Proof.
  revert seenTypes references.
  induction typeNames as [| typeName rest IH]; intros seenTypes references;
    simpl.
  - now rewrite app_nil_r.
  - destruct (Js.has (Js.pop_or typeName) seenTypes); [apply IH |].
    simpl. unfold resolved at 1.
    destruct (resolveType typeName currentFile workspaceFiles)
      as [reference |] eqn:E.
    + destruct (TypeReference.definition reference) eqn:D.
      * rewrite IH, <- app_assoc. reflexivity.
      * now apply resolveType_defined in E.
    + apply IH.
Qed.

(** A candidate type name is looked up in the file of the function
    first and then in the other files of the index in insertion order;
    the result is the first definition of the name and under the
    qualifier that the split of the candidate at its dots gives; and
    [resolveTypes] returns, in order, the references found for its
    distinct candidates.  How a candidate reads as text is settled
    further down ([resolveType_search_order_by_text]). *)
Lemma resolveType_search_order_first_match
  (functionInfo : FunctionInfo.t) (typeName : string)
  (currentFile : ParsedFile.t) (workspaceFiles : Workspace) :
  resolveType typeName currentFile workspaceFiles
  = hd_error
      (flat_map
         (definitionsNamed (Js.last_part (Js.split "." typeName))
                           (qualifier (Js.split "." typeName)))
         (searchOrder currentFile workspaceFiles))
  /\ resolveTypes functionInfo currentFile workspaceFiles
     = flat_map
         (fun candidate =>
            match resolveType candidate currentFile workspaceFiles with
            | Some reference => [reference]
            | None => []
            end)
         (distinctCandidates (extractAllTypeNames functionInfo) []).
Proof.
  split.
  - apply resolveType_first.
  - unfold resolveTypes. now rewrite resolveEach_flat_map.
Qed.
End TypeResolution.

(* ------------------------------------------------------------------ *)
(** ** Point queries and qualified names *)
(* ------------------------------------------------------------------ *)

Section PointQueries.
Import TypeResolver CallGraphBuilder.

Definition origin : SourceLocation.t :=
  SourceLocation.mk (Position.mk 1 0) (Position.mk 1 0).

(** A workspace of one file with one contract, [Vault], that declares a
    struct [Pool] and a function [f]. *)
Definition vaultPool : StructInfo.t :=
  StructInfo.mk "Pool" [StructMember.mk "token" "address"]
                "struct Pool { address token; }" origin "Vault.sol"
                (Some "Vault").

Definition vaultF : FunctionInfo.t :=
  FunctionInfo.mk "f" "public" None [] [] [] "{}" "function f() public {}"
                  origin "Vault.sol".

Definition vaultWorkspace : Workspace :=
  [("Vault.sol",
    ParsedFile.mk "Vault.sol"
      [ContractInfo.mk "Vault" KContract [vaultF] [vaultPool] [] [] []
                       origin "Vault.sol"]
      [] [])].

(** C9.  [resolveSingleFunction] on a qualified name [X.f] ([f] an
    identifier: no dot) takes no account of [X]: it gives what it gives
    on [f], which is the first function named [f] among all the
    functions of all the contracts of the workspace in iteration order,
    whatever the name of the contract that holds it;
    [resolveSingleType] is not so: there are a workspace and a
    qualified name on which it finds nothing although the unqualified
    query finds the type. *)
Theorem resolveSingleFunction_ignores_qualifier
  (X f : string) (workspaceFiles : Workspace) :
  dotless f = true ->
  resolveSingleFunction (X ++ "." ++ f) workspaceFiles
  = resolveSingleFunction f workspaceFiles
  /\ resolveSingleFunction (X ++ "." ++ f) workspaceFiles
     = find (fun func => String.eqb (FunctionInfo.name func) f)
            (all_functions workspaceFiles)
  /\ exists ws : Workspace,
       resolveSingleType "Pool" ws <> None
       /\ resolveSingleType "Bank.Pool" ws = None.
Proof.
  intros Hf. repeat split.
  - rewrite !resolveSingleFunction_find. now rewrite last_part_qualified.
  - rewrite resolveSingleFunction_find, last_part_qualified.
    now rewrite split_dotless.
  - exists vaultWorkspace. split; [vm_compute; discriminate | reflexivity].
Qed.

Lemma resolveSingleFunction_ignores_qualifier_witness :
  resolveSingleFunction "Bank.f" vaultWorkspace
  = resolveSingleFunction "f" vaultWorkspace
  /\ resolveSingleFunction "Bank.f" vaultWorkspace = Some vaultF.
Proof.
  destruct (@resolveSingleFunction_ignores_qualifier "Bank" "f"
              vaultWorkspace) as [H1 [H2 _]].
  - reflexivity.
  - split; [exact H1 | exact (eq_trans H2 eq_refl)].
Defined.

Lemma findTypeInFile_none (typeName : string) (contractName : option string)
  (file : ParsedFile.t) :
  (forall contract,
      In contract (ParsedFile.contracts file) ->
      skipped contractName contract = false ->
      (forall st, In st (ContractInfo.structs contract) ->
                  StructInfo.name st <> typeName)
      /\ (forall en, In en (ContractInfo.enums contract) ->
                     EnumInfo.name en <> typeName)) ->
  findTypeInFile typeName contractName file = None.
Proof.
  intros H. unfold findTypeInFile. apply first_some_none.
  intros contract Hin. unfold findInContract.
  destruct (skipped contractName contract) eqn:E; [reflexivity |].
  destruct (H contract Hin E) as [Hs He].
  replace (find _ (ContractInfo.structs contract)) with (@None StructInfo.t).
  - replace (find _ (ContractInfo.enums contract)) with (@None EnumInfo.t);
      [reflexivity |].
    symmetry. apply find_none_iff. intros en Hen.
    apply String.eqb_neq. now apply He.
  - symmetry. apply find_none_iff. intros st Hst.
    apply String.eqb_neq. now apply Hs.
Qed.

(** C10.  For a contract name [X] and a type name [T] (identifiers: no
    dot, and [X] not empty), [resolveSingleType] on [X.T] is null as
    soon as no contract named [X] declares a struct or an enum named
    [T], whatever the other contracts of the workspace declare. *)
Theorem resolveSingleType_qualifier_no_fallback
  (X T : string) (workspaceFiles : Workspace) :
  X <> "" ->
  dotless X = true ->
  dotless T = true ->
  (forall contract,
      In contract (all_contracts workspaceFiles) ->
      ContractInfo.name contract = X ->
      (forall st, In st (ContractInfo.structs contract) ->
                  StructInfo.name st <> T)
      /\ (forall en, In en (ContractInfo.enums contract) ->
                     EnumInfo.name en <> T)) ->
  resolveSingleType (X ++ "." ++ T) workspaceFiles = None.
Proof.
  intros HX HdX HdT Hnone. unfold resolveSingleType.
  rewrite split_qualified by assumption.
  unfold qualifier, Js.last_part, Js.first_part. simpl.
  apply first_some_none. intros entry Hentry.
  apply findTypeInFile_none. intros contract Hin Hskip.
  apply Hnone.
  - unfold all_contracts. apply in_flat_map. now exists entry.
  - unfold skipped in Hskip.
    apply String.eqb_neq in HX. rewrite HX in Hskip. simpl in Hskip.
    apply negb_false_iff in Hskip. now apply String.eqb_eq.
Qed.

Lemma resolveSingleType_qualifier_no_fallback_witness :
  resolveSingleType "Bank.Pool" vaultWorkspace = None
  /\ resolveSingleType "Pool" vaultWorkspace
     = Some (TypeReference.mk "Pool" TStruct (Some (DStruct vaultPool))).
Proof.
  split; [| reflexivity].
  apply (@resolveSingleType_qualifier_no_fallback "Bank" "Pool"
           vaultWorkspace).
  - discriminate.
  - reflexivity.
  - reflexivity.
  - intros contract [<- | []] Hname. discriminate Hname.
Defined.
End PointQueries.

(* ------------------------------------------------------------------ *)
(** ** Candidates read as text *)
(* ------------------------------------------------------------------ *)

Section QualifiedCandidates.
Import TypeResolver.

(** The contracts a search looks into: those of a given name, or all. *)
Definition named (X : string) (contract : ContractInfo.t) : bool :=
  String.eqb (ContractInfo.name contract) X.

Definition anyContract (_ : ContractInfo.t) : bool := true.

(** The structs and then the enums called [T] that the contracts of a
    file that [wanted] holds of declare, contract after contract, as
    references under the name [label]. *)
Definition declarations (wanted : ContractInfo.t -> bool) (label T : string)
  (file : ParsedFile.t) : list TypeReference.t :=
  flat_map
    (fun contract =>
       if wanted contract then
         map (fun st => TypeReference.mk label TStruct (Some (DStruct st)))
             (filter (fun st => String.eqb (StructInfo.name st) T)
                     (ContractInfo.structs contract))
         ++
         map (fun en => TypeReference.mk label TEnum (Some (DEnum en)))
             (filter (fun en => String.eqb (EnumInfo.name en) T)
                     (ContractInfo.enums contract))
       else [])
    (ParsedFile.contracts file).

(** The first of them over a list of files. *)
Definition firstDeclaration (wanted : ContractInfo.t -> bool)
  (label T : string) (files : list ParsedFile.t) : option TypeReference.t :=
  hd_error (flat_map (declarations wanted label T) files).

(** [rest] is [T], or ends with a dot and [T]. *)
Definition endsWith (rest T : string) : Prop :=
  rest = T \/ exists mid : string, rest = (mid ++ "." ++ T)%string.

Lemma definitionsNamed_declarations (T : string) (q : option string)
  (wanted : ContractInfo.t -> bool) (label : string) (file : ParsedFile.t) :
  (forall contract, admits q contract = wanted contract) ->
  referenceName q T = label ->
  definitionsNamed T q file = declarations wanted label T file.
Proof.
  intros Hw <-. unfold definitionsNamed, declarations.
  apply flat_map_ext. intros contract. now rewrite Hw.
Qed.

Lemma split_behind_first_dot (X rest : string) :
  dotless X = true ->
  Js.split "." (X ++ "." ++ rest) = X :: Js.split "." rest.
Proof.
  intros HX. unfold Js.split. rewrite chars_app. simpl.
  rewrite split_chars_prefix by exact HX. simpl. now rewrite str_chars.
Qed.

Lemma last_part_endsWith (rest T : string) :
  dotless T = true -> endsWith rest T ->
  Js.last_part (Js.split "." rest) = T.
Proof.
  intros HT [-> | [mid ->]].
  - now rewrite split_dotless.
  - rewrite last_part_qualified. now rewrite split_dotless.
Qed.

Lemma reads_behind_first_dot (X rest T : string) :
  dotless X = true -> dotless T = true -> endsWith rest T ->
  Js.last_part (Js.split "." (X ++ "." ++ rest)) = T
  /\ qualifier (Js.split "." (X ++ "." ++ rest)) = Some X.
Proof.
  intros HX HT Hrest. rewrite split_behind_first_dot by exact HX.
  pose proof (@split_chars_not_nil "." (Js.chars rest) []) as Hne.
  fold (Js.split "." rest) in Hne.
  pose proof (last_part_endsWith HT Hrest) as Hlast.
  destruct (Js.split "." rest) as [| part parts]; [congruence |].
  split; [exact Hlast | reflexivity].
Qed.

(** The reading under test: of a candidate with more than one dot, the
    contract that qualifies the type is the part next to the type, and
    the definition returned is the first one in a contract of that
    name. *)
Definition restrictsToQualifyingContract (currentFile : ParsedFile.t)
  (workspaceFiles : Workspace) : Prop :=
  forall outer Q T : string,
    dotless Q = true ->
    dotless T = true ->
    option_map TypeReference.definition
      (resolveType (outer ++ "." ++ Q ++ "." ++ T) currentFile workspaceFiles)
    = option_map TypeReference.definition
        (firstDeclaration (named Q) (Q ++ "." ++ T) T
           (searchOrder currentFile workspaceFiles)).

(** The file of [vaultWorkspace], and a function of it that takes a
    [Pool] named through the alias [M] of an import. *)
Definition vaultFile : ParsedFile.t :=
  ParsedFile.mk "Vault.sol"
    [ContractInfo.mk "Vault" KContract [vaultF] [vaultPool] [] [] []
                     origin "Vault.sol"]
    [] [].

Definition closePool : FunctionInfo.t :=
  FunctionInfo.mk "closePool" "public" None
    [ParameterInfo.mk "pool" "M.Vault.Pool" (Some "memory")] [] []
    "{}" "function closePool(M.Vault.Pool memory pool) public {}"
    origin "Vault.sol".

(** C5, as stated, fails: the candidate [M.Vault.Pool] is qualified by
    the contract [Vault], which declares the struct [Pool], and the
    lookup is null: the contracts searched are those named by the part
    before the first dot, [M]; the parameter of that type leaves no
    reference in what [resolveTypes] returns. *)
Lemma nested_qualifier_restricts_to_first_part :
  resolveType "M.Vault.Pool" vaultFile vaultWorkspace = None
  /\ resolveTypes closePool vaultFile vaultWorkspace = []
  /\ firstDeclaration (named "Vault") "Vault.Pool" "Pool"
       (searchOrder vaultFile vaultWorkspace)
     = Some (TypeReference.mk "Vault.Pool" TStruct (Some (DStruct vaultPool)))
  /\ ~ restrictsToQualifyingContract vaultFile vaultWorkspace.
Proof.
  split; [reflexivity |]. split; [vm_compute; reflexivity |].
  split; [reflexivity |].
  intros H. specialize (H "M" "Vault" "Pool" eq_refl eq_refl).
  discriminate H.
Qed.

(** C5, amended.  A candidate is looked up in the file of the function
    first and then in the other files of the index in insertion order,
    the contracts of a file in order, the structs of a contract before
    its enums, and the first definition met is returned:
    - for a name [T] without a dot, the first struct or enum named [T] of
      any contract, under the name [T];
    - for a name with dots, [T] its part after the last dot and [X] its
      part before the first dot, the first struct or enum named [T] of a
      contract named [X], under the name [X.T], whatever stands between
      the two; when [X] is empty, of any contract, under the name [T].
    [resolveTypes] returns, in order, the references found for its
    distinct candidates: a candidate without a definition leaves nothing
    in the list.  Both functions are total: nothing is raised. *)
Theorem resolveType_search_order_by_text
  (functionInfo : FunctionInfo.t) (currentFile : ParsedFile.t)
  (workspaceFiles : Workspace) :
  (forall T : string,
      dotless T = true ->
      resolveType T currentFile workspaceFiles
      = firstDeclaration anyContract T T
          (searchOrder currentFile workspaceFiles))
  /\ (forall X rest T : string,
         dotless X = true -> X <> "" ->
         dotless T = true -> endsWith rest T ->
         resolveType (X ++ "." ++ rest) currentFile workspaceFiles
         = firstDeclaration (named X) (X ++ "." ++ T) T
             (searchOrder currentFile workspaceFiles))
  /\ (forall rest T : string,
         dotless T = true -> endsWith rest T ->
         resolveType ("." ++ rest) currentFile workspaceFiles
         = firstDeclaration anyContract T T
             (searchOrder currentFile workspaceFiles))
  /\ resolveTypes functionInfo currentFile workspaceFiles
     = flat_map
         (fun candidate =>
            match resolveType candidate currentFile workspaceFiles with
            | Some reference => [reference]
            | None => []
            end)
         (distinctCandidates (extractAllTypeNames functionInfo) []).
Proof.
  split; [| split; [| split]].
  - intros T HT. rewrite resolveType_first, split_dotless by exact HT.
    unfold firstDeclaration. apply f_equal. apply flat_map_ext. intros file.
    now apply definitionsNamed_declarations.
  - intros X rest T HX HXne HT Hrest. rewrite resolveType_first.
    destruct (@reads_behind_first_dot X rest T HX HT Hrest) as [-> ->].
    unfold firstDeclaration. apply f_equal. apply flat_map_ext. intros file.
    apply String.eqb_neq in HXne.
    apply definitionsNamed_declarations.
    + intros contract. unfold admits, named. now rewrite HXne.
    + unfold referenceName. now rewrite HXne.
  - intros rest T HT Hrest. rewrite resolveType_first.
    destruct (@reads_behind_first_dot "" rest T eq_refl HT Hrest)
      as [Hlast Hq].
    change ("" ++ "." ++ rest)%string with ("." ++ rest)%string in Hlast, Hq.
    rewrite Hlast, Hq.
    unfold firstDeclaration. apply f_equal. apply flat_map_ext. intros file.
    now apply definitionsNamed_declarations.
  - unfold resolveTypes. now rewrite resolveEach_flat_map.
Qed.

Lemma resolveType_search_order_by_text_witness :
  dotless "Vault" = true /\ "Vault" <> "" /\ dotless "Pool" = true
  /\ endsWith "Pool" "Pool"
  /\ resolveType "Vault.Pool" vaultFile vaultWorkspace
     = Some (TypeReference.mk "Vault.Pool" TStruct (Some (DStruct vaultPool)))
  /\ resolveType "Bank.Pool" vaultFile vaultWorkspace = None
  /\ resolveType "Pool" vaultFile vaultWorkspace
     = Some (TypeReference.mk "Pool" TStruct (Some (DStruct vaultPool))).
Proof.
  assert (Hends : endsWith "Pool" "Pool") by now left.
  destruct (resolveType_search_order_by_text vaultF vaultFile vaultWorkspace)
    as (Hplain & Hqualified & _ & _).
  split; [reflexivity |]. split; [discriminate |]. split; [reflexivity |].
  split; [exact Hends |]. split; [| split].
  - refine (eq_trans (Hqualified "Vault" "Pool" "Pool" eq_refl _ eq_refl
                                 Hends) _); [discriminate | reflexivity].
  - refine (eq_trans (Hqualified "Bank" "Pool" "Pool" eq_refl _ eq_refl
                                 Hends) _); [discriminate | reflexivity].
  - refine (eq_trans (Hplain "Pool" eq_refl) _). reflexivity.
Defined.
End QualifiedCandidates.

(* ------------------------------------------------------------------ *)
(** ** Interface-like names among the type candidates *)
(* ------------------------------------------------------------------ *)

Section InterfaceNames.
Import TypeResolver.

(** [addTypeIfValid] never lets in a name that follows the naming
    convention of interfaces, so the scan of the body offers none. *)
Lemma addTypeIfValid_no_interface (name : string) (types : list string)
  (t : string) :
  In t (addTypeIfValid name types) ->
  In t types \/ Regex.test interfaceName t = false.
Proof.
  unfold addTypeIfValid.
  repeat match goal with
         | |- context [if ?b then types else _] =>
             destruct b eqn:?; [now left |]
         end.
  intros H. apply add_In in H as [-> | H]; [now right | now left].
Qed.

Lemma addMatches_no_interface (pattern : Regex.regex)
  (pick : Regex.result -> string) (sourceCode : string)
  (types : list string) (t : string) :
  In t (addMatches pattern pick sourceCode types) ->
  In t types \/ Regex.test interfaceName t = false.
Proof.
  unfold addMatches. generalize (Regex.scan pattern sourceCode) as ms.
  intros ms. revert types.
  induction ms as [| m ms IH]; intros types H; simpl in H; [now left |].
  apply IH in H as [H | H]; [| now right].
  now apply addTypeIfValid_no_interface in H.
Qed.

Lemma extractTypesFromBody_no_interface (sourceCode : string)
  (types : list string) (t : string) :
  In t (extractTypesFromBody sourceCode types) ->
  In t types \/ Regex.test interfaceName t = false.
Proof.
  unfold extractTypesFromBody.
  set (step := fun acc m => _).
  generalize (Regex.scan genericPattern sourceCode) as ms. intros ms.
  set (types4 := addMatches typeComparePattern _ _ _).
  assert (H4 : In t types4 -> In t types \/ Regex.test interfaceName t = false).
  { unfold types4. intros H.
    apply addMatches_no_interface in H as [H | H]; [| now right].
    apply addMatches_no_interface in H as [H | H]; [| now right].
    apply addMatches_no_interface in H as [H | H]; [| now right].
    unfold varDeclPatterns in H. simpl in H.
    apply addMatches_no_interface in H as [H | H]; [| now right].
    now apply addMatches_no_interface in H. }
  clearbody types4. revert types4 H4.
  induction ms as [| m ms IH]; intros acc Hacc H; simpl in H;
    [now apply Hacc |].
  apply IH in H; [assumption |].
  intros Hin. unfold step in Hin.
  destruct (_ && _) in Hin; [now apply Hacc |].
  apply addTypeIfValid_no_interface in Hin as [Hin | Hin];
    [now apply Hacc | now right].
Qed.

(** A ledger contract with a struct [IOU], and a function that takes
    one. *)
Definition iou : StructInfo.t :=
  StructInfo.mk "IOU"
                [StructMember.mk "debtor" "address";
                 StructMember.mk "amount" "uint256"]
                "struct IOU { address debtor; uint256 amount; }"
                (SourceLocation.mk (Position.mk 2 4) (Position.mk 2 50))
                "Ledger.sol" (Some "Ledger").

Definition settle : FunctionInfo.t :=
  FunctionInfo.mk "settle" "public" None
                  [ParameterInfo.mk "debt" "IOU" (Some "memory")] [] []
                  "{}" "function settle(IOU memory debt) public {}"
                  (SourceLocation.mk (Position.mk 4 4) (Position.mk 4 46))
                  "Ledger.sol".

Definition ledgerFile : ParsedFile.t :=
  ParsedFile.mk "Ledger.sol"
    [ContractInfo.mk "Ledger" KContract [settle] [iou] [] [] []
                     (SourceLocation.mk (Position.mk 1 0) (Position.mk 5 1))
                     "Ledger.sol"]
    [] [].

Definition ledgerWorkspace : Workspace := [("Ledger.sol", ledgerFile)].

(** The property at stake: no reference [resolveTypes] returns has an
    unqualified name that follows the naming convention of interfaces. *)
Definition offersNoInterface (functionInfo : FunctionInfo.t)
  (currentFile : ParsedFile.t) (workspaceFiles : Workspace) : Prop :=
  forall reference,
    In reference (resolveTypes functionInfo currentFile workspaceFiles) ->
    Regex.test interfaceName (Js.pop_or (TypeReference.name reference))
    = false.

(** C2.  On [settle], whose parameter has the declared type [IOU],
    [resolveTypes] returns a reference whose name follows the naming
    convention of interfaces, so the property does not hold there: the
    name comes in through [extractFromTypeName], which has no test for
    the convention, while the scan of the body of the same function,
    which goes through [addTypeIfValid], offers nothing. *)
Theorem resolveTypes_interface_named_parameter :
  resolveTypes settle ledgerFile ledgerWorkspace
  = [TypeReference.mk "IOU" TStruct (Some (DStruct iou))]
  /\ Regex.test interfaceName "IOU" = true
  /\ ~ offersNoInterface settle ledgerFile ledgerWorkspace
  /\ extractFromTypeName "IOU" [] = ["IOU"]
  /\ extractTypesFromBody (FunctionInfo.fullSource settle) [] = [].
Proof.
  assert (H : resolveTypes settle ledgerFile ledgerWorkspace
              = [TypeReference.mk "IOU" TStruct (Some (DStruct iou))])
    by (vm_compute; reflexivity).
  repeat split; try (vm_compute; reflexivity).
  intros Hno.
  specialize (Hno (TypeReference.mk "IOU" TStruct (Some (DStruct iou)))).
  rewrite H in Hno. specialize (Hno (or_introl eq_refl)).
  vm_compute in Hno. discriminate Hno.
Qed.
End InterfaceNames.

(* ------------------------------------------------------------------ *)
(** ** State-variable references *)
(* ------------------------------------------------------------------ *)

Section StateVariables.
Import StateVariableResolver.

Lemma stateVarNames_In (svs : list StateVariableInfo.t) (acc : list string)
  (x : string) :
  In x (fold_left (fun acc sv => Js.add (StateVariableInfo.name sv) acc)
                  svs acc)
  <-> In x acc \/ In x (map StateVariableInfo.name svs).
Proof.
  revert acc. induction svs as [| sv svs IH]; intros acc; simpl.
  - tauto.
  - rewrite IH, add_In. intuition congruence.
Qed.

Lemma references_In (vars ids acc : list string) (x : string) :
  In x (fold_left
          (fun stateVarNames identifier =>
             if Js.has identifier vars
             then Js.add identifier stateVarNames
             else stateVarNames)
          ids acc)
  <-> In x acc \/ (In x ids /\ In x vars).
Proof.
  revert acc. induction ids as [| id ids IH]; intros acc; simpl.
  - tauto.
  - rewrite IH. destruct (Js.has id vars) eqn:E.
    + apply has_In in E. rewrite add_In. intuition congruence.
    + apply has_false_In in E. intuition congruence.
Qed.

Lemma references_NoDup (vars ids acc : list string) :
  NoDup acc ->
  NoDup (fold_left
           (fun stateVarNames identifier =>
              if Js.has identifier vars
              then Js.add identifier stateVarNames
              else stateVarNames)
           ids acc).
Proof.
  revert acc. induction ids as [| id ids IH]; intros acc H; simpl;
    [assumption |].
  apply IH. destruct (Js.has id vars); [now apply add_NoDup | assumption].
Qed.

(** The set [extractStateVariableReferences] returns holds a name
    exactly when the scan of the full source of the function meets it
    and the contract declares a state variable of that name; each name
    is there once.  What the scan meets in a text is settled further
    down ([identifiers_occur]). *)
Lemma extractStateVariableReferences_intersection
  (functionInfo : FunctionInfo.t) (currentContract : ContractInfo.t) :
  NoDup (extractStateVariableReferences functionInfo currentContract)
  /\ forall x : string,
       In x (extractStateVariableReferences functionInfo currentContract)
       <-> In x (identifiers (FunctionInfo.fullSource functionInfo))
           /\ In x (map StateVariableInfo.name
                        (ContractInfo.stateVariables currentContract)).
Proof.
  unfold extractStateVariableReferences. split.
  - apply references_NoDup. constructor.
  - intros x. rewrite references_In, stateVarNames_In. simpl. tauto.
Qed.

(** A local variable that has the name of a state variable counts as a
    reference to it. *)
Example shadowing_local_is_reported :
  extractStateVariableReferences
    (FunctionInfo.mk "f" "public" None [] [] []
       "{ uint total = 1; emit Log(total); }"
       "function f() public { uint total = 1; emit Log(total); }"
       (SourceLocation.mk (Position.mk 3 4) (Position.mk 3 60)) "C.sol")
    (ContractInfo.mk "C" KContract [] [] []
       [StateVariableInfo.mk "total" "uint256" "public"
          "uint256 public total;"
          (SourceLocation.mk (Position.mk 2 4) (Position.mk 2 25))
          "C.sol" "C";
        StateVariableInfo.mk "owner" "address" "public"
          "address public owner;"
          (SourceLocation.mk (Position.mk 1 4) (Position.mk 1 25))
          "C.sol" "C"]
       [] (SourceLocation.mk (Position.mk 0 0) (Position.mk 4 1)) "C.sol")
  = ["total"].
Proof. vm_compute. reflexivity. Qed.
End StateVariables.

(* ------------------------------------------------------------------ *)
(** ** The walker *)
(* ------------------------------------------------------------------ *)

Section Walker.
Import ASTTraverser.


Lemma traverse_unfold (S : Type) (visitor : ASTVisitor S) (node : JsValue)
  (parent : option JsValue) (s : S) :
  traverse visitor node parent s
  = traverse_on visitor (traverse visitor) node parent s.
Proof. destruct node; reflexivity. Qed.

(** *** Two visitors that stop on the same nodes *)

Section Simulation.
Variables S1 S2 : Type.
Variable R : S1 -> S2 -> Prop.



Section Below.
Variable walk1 : JsValue -> option JsValue -> S1 -> outcome S1.
Variable walk2 : JsValue -> option JsValue -> S2 -> outcome S2.











End Below.

Variable visitor1 : ASTVisitor S1.
Variable visitor2 : ASTVisitor S2.

(** The visitors have callbacks for the same node types, and related
    states stay related through callbacks that stop together. *)
Definition callbacks_agree : Prop :=
  forall key,
    match visitor1 key, visitor2 key with
    | Some c1, Some c2 =>
        forall node parent s1 s2,
          R s1 s2 ->
          is_true (fst (c1 node parent s1))
          = is_true (fst (c2 node parent s2))
          /\ R (snd (c1 node parent s1)) (snd (c2 node parent s2))
    | None, None => True
    | _, _ => False
    end.

Hypothesis Hcallbacks : callbacks_agree.



End Simulation.
End Walker.

(* ------------------------------------------------------------------ *)
(** ** The stop signal of a callback *)
(* ------------------------------------------------------------------ *)

Section StopSignal.
Import ASTTraverser.

(** The reading under test: whatever truthy value the callback of the
    node returns, the traversal ends there, in the state the callback
    left. *)
Definition stopsOnTruthy (S : Type) (visitor : ASTVisitor S)
  (node : JsValue) (parent : option JsValue) (s : S) : Prop :=
  forall callback shouldStop s',
    visitor (type_key node) = Some callback ->
    callback node parent s = (shouldStop, s') ->
    truthy shouldStop = true ->
    traverse visitor node parent s = Done s'.

(** A block with one statement, the expression [x]. *)
Definition blockOfX : JsValue :=
  JObj (Some "Block") None
    [("statements",
      JArr [JObj (Some "ExpressionStatement") None
              [("expression",
                JObj (Some "Identifier") None [("name", JStr "x")])]])].

(** A visitor that counts identifiers and answers [1] on a block. *)
Definition countIdentifiers : ASTVisitor nat :=
  fun key =>
    if String.eqb key "Block" then Some (fun _ _ n => (JNum 1, n))
    else if String.eqb key "Identifier" then Some (fun _ _ n => (JNull, S n))
    else None.

(** C4, as stated, fails: the callback of the block returns the truthy
    value [1] and the identifier below the block is visited all the
    same. *)
Lemma truthy_number_does_not_stop :
  traverse countIdentifiers blockOfX None 0 = Done 1
  /\ ~ stopsOnTruthy countIdentifiers blockOfX None 0.
Proof.
  split; [reflexivity |].
  intros H.
  specialize (H (fun _ _ n => (JNum 1, n)) (JNum 1) 0
                eq_refl eq_refl eq_refl).
  discriminate H.
Qed.

(** C4, amended.  For a node and a visitor: when the callback for the
    type of the node returns the boolean [true], [traverse] ends in the
    state the callback left, without going to the children; when it
    returns any other value, truthy or not, [traverse] goes on to the
    children from that state; when there is no callback for the type,
    it goes to the children. *)
Theorem traverse_stops_on_true_only (S : Type) (visitor : ASTVisitor S)
  (node : JsValue) (parent : option JsValue) (s : S) :
  node <> JNull ->
  (forall callback shouldStop s',
      visitor (type_key node) = Some callback ->
      callback node parent s = (shouldStop, s') ->
      (shouldStop = JBool true ->
       traverse visitor node parent s = Done s')
      /\ (shouldStop <> JBool true ->
          traverse visitor node parent s
          = traverseChildren visitor node s'))
  /\ (visitor (type_key node) = None ->
      traverse visitor node parent s = traverseChildren visitor node s).
Proof.
  intros Hnode. rewrite traverse_unfold. unfold traverseChildren.
  assert (Hon :
    traverse_on visitor (traverse visitor) node parent s
    = match visitor (type_key node) with
      | Some callback =>
          let (shouldStop, s') := callback node parent s in
          if is_true shouldStop then Done s'
          else traverseChildren_on (traverse visitor) node s'
      | None => traverseChildren_on (traverse visitor) node s
      end).
  { destruct node; [congruence | reflexivity ..]. }
  rewrite Hon. split.
  - intros callback shouldStop s' Hcb Hres. rewrite Hcb, Hres. split.
    + intros ->. reflexivity.
    + intros Hne.
      destruct shouldStop as [| [|] | | | |]; try reflexivity. congruence.
  - intros Hcb. now rewrite Hcb.
Qed.

Lemma traverse_stops_on_true_only_witness :
  traverse countIdentifiers blockOfX None 0
  = traverseChildren countIdentifiers blockOfX 0
  /\ findFirst blockOfX "ExpressionStatement"
     = Done (Some (JObj (Some "ExpressionStatement") None
                     [("expression",
                       JObj (Some "Identifier") None [("name", JStr "x")])])).
Proof.
  split; [| reflexivity].
  destruct (@traverse_stops_on_true_only nat countIdentifiers blockOfX
              None 0) as [H _].
  - discriminate.
  - destruct (H (fun _ _ n => (JNum 1, n)) (JNum 1) 0 eq_refl eq_refl)
      as [_ Hgo].
    apply Hgo. discriminate.
Defined.
End StopSignal.

(* ------------------------------------------------------------------ *)
(** ** The function at a position *)
(* ------------------------------------------------------------------ *)

Section AtPosition.
Import ASTTraverser.
Local Open Scope Z_scope.




(** The state of [findAtPosition] after the callback has seen the nodes
    of a list in order. *)
Definition pick (line column : Z) (fs : list JsValue)
  : option JsValue * option Z :=
  fold_left (fun st n => atPosition line column n st) fs (None, None).










End AtPosition.

(* ------------------------------------------------------------------ *)
(** ** The inheritance graph *)
(* ------------------------------------------------------------------ *)

Section Inheritance.
Import InheritanceResolver.

Lemma map_get_set (V : Type) (k k' : string) (v : V)
  (m : list (string * V)) :
  map_get k' (map_set k v m)
  = if String.eqb k k' then Some v else map_get k' m.
Proof.
  induction m as [| [k0 v0] m IH]; simpl.
  - reflexivity.
  - destruct (String.eqb k0 k) eqn:E0; simpl.
    + apply String.eqb_eq in E0. subst k0.
      destruct (String.eqb k k'); reflexivity.
    + rewrite IH. destruct (String.eqb k0 k') eqn:E1; [| reflexivity].
      apply String.eqb_eq in E1. subst k0.
      now rewrite String.eqb_sym, E0.
Qed.

Lemma map_get_In (V : Type) (k : string) (v : V) (m : list (string * V)) :
  map_get k m = Some v -> In (k, v) m.
Proof.
  induction m as [| [k0 v0] m IH]; simpl; [discriminate |].
  destruct (String.eqb k0 k) eqn:E.
  - apply String.eqb_eq in E. intros [= ->]. left. now subst.
  - intros H. right. now apply IH.
Qed.

Lemma In_map_get (V : Type) (k : string) (v : V) (m : list (string * V)) :
  In (k, v) m -> exists v', map_get k m = Some v'.
Proof.
  induction m as [| [k0 v0] m IH]; simpl; [contradiction |].
  intros [H | H].
  - injection H as -> ->. rewrite String.eqb_refl. now exists v.
  - destruct (String.eqb k0 k); [now exists v0 | now apply IH].
Qed.

(** [n] declares [b] as a base: a declared-base edge of the graph. *)
Definition inherits (g : t) (n b : string) : Prop :=
  exists contract,
    In (n, contract) (contractMap g)
    /\ In b (ContractInfo.baseContracts contract).

(** The pairs (contract, base) in the order the second pass meets them. *)
Definition declared (cm : list (string * ContractInfo.t))
  : list (string * string) :=
  flat_map (fun entry =>
              map (fun baseName => (fst entry, baseName))
                  (ContractInfo.baseContracts (snd entry)))
           cm.

Definition inheritorsOf (baseName : string)
  (ib : list (string * list string)) : list string :=
  match map_get baseName ib with
  | Some inheritors => inheritors
  | None => []
  end.

Lemma addInheritor_get (name baseName b : string)
  (ib : list (string * list string)) :
  map_get b (addInheritor name baseName ib)
  = if String.eqb baseName b
    then Some (Js.add name (inheritorsOf baseName ib))
    else map_get b ib.
Proof.
  unfold addInheritor, map_has, inheritorsOf.
  destruct (map_get baseName ib) as [l |] eqn:E.
  - rewrite E. apply map_get_set.
  - rewrite map_get_set, String.eqb_refl, !map_get_set.
    destruct (String.eqb baseName b); reflexivity.
Qed.

Lemma collectInheritedBy_declared (cm : list (string * ContractInfo.t)) :
  collectInheritedBy cm
  = fold_left (fun ib edge => addInheritor (fst edge) (snd edge) ib)
              (declared cm) [].
Proof.
  unfold collectInheritedBy, declared. generalize (@nil (string * list string)).
  induction cm as [| entry cm IH]; intros ib; simpl; [reflexivity |].
  rewrite fold_left_app, IH. f_equal.
  generalize (ContractInfo.baseContracts (snd entry)) as bases.
  intros bases. revert ib.
  induction bases as [| b bases IHb]; intros ib; simpl; [reflexivity |].
  apply IHb.
Qed.

(** The sets of [inheritedBy] hold exactly the declared pairs, once
    each. *)
Definition records (edges : list (string * string))
  (ib : list (string * list string)) : Prop :=
  forall b,
    NoDup (inheritorsOf b ib)
    /\ (forall n, In n (inheritorsOf b ib) <-> In (n, b) edges).

Lemma addInheritor_records (edges : list (string * string))
  (ib : list (string * list string)) (name baseName : string) :
  records edges ib ->
  records (edges ++ [(name, baseName)]) (addInheritor name baseName ib).
Proof.
  intros H b. destruct (H b) as [Hnd Hin].
  unfold inheritorsOf at 1 2. rewrite addInheritor_get.
  destruct (String.eqb baseName b) eqn:E.
  - apply String.eqb_eq in E. subst b. split.
    + now apply add_NoDup.
    + intros n. rewrite add_In, in_app_iff, Hin. simpl.
      intuition congruence.
  - apply String.eqb_neq in E. fold (inheritorsOf b ib). split.
    + assumption.
    + intros n. rewrite in_app_iff, Hin. simpl. intuition congruence.
Qed.

Lemma fold_addInheritor_records (todo done : list (string * string))
  (ib : list (string * list string)) :
  records done ib ->
  records (done ++ todo)
          (fold_left (fun ib edge => addInheritor (fst edge) (snd edge) ib)
                     todo ib).
Proof.
  revert done ib. induction todo as [| [n b] todo IH]; intros done ib H.
  - simpl. now rewrite app_nil_r.
  - simpl. replace (done ++ (n, b) :: todo) with ((done ++ [(n, b)]) ++ todo)
      by now rewrite <- app_assoc.
    apply IH. now apply addInheritor_records.
Qed.

Lemma collectInheritedBy_records (cm : list (string * ContractInfo.t)) :
  records (declared cm) (collectInheritedBy cm).
Proof.
  rewrite collectInheritedBy_declared.
  apply (@fold_addInheritor_records (declared cm) [] []).
  intros b. split; [constructor | intros n; simpl; tauto].
Qed.

Lemma declared_inherits (workspaceFiles : Workspace) (n b : string) :
  In (n, b) (declared (contractMap (buildInheritanceGraph workspaceFiles)))
  <-> inherits (buildInheritanceGraph workspaceFiles) n b.
Proof.
  unfold declared, inherits. rewrite in_flat_map. split.
  - intros [[k c] [Hin Hb]]. simpl in Hb.
    apply in_map_iff in Hb as [b' [[= <- <-] Hb]]. now exists c.
  - intros [c [Hin Hb]]. exists (n, c). split; [assumption |].
    simpl. apply in_map_iff. now exists b.
Qed.

(** The inheritors [inheritedBy] lists for a name are the contracts of
    the graph that declare it as a base. *)
Lemma inheritedBy_inherits (workspaceFiles : Workspace) (n b : string) :
  In n (inheritorsOf b (inheritedBy (buildInheritanceGraph workspaceFiles)))
  <-> inherits (buildInheritanceGraph workspaceFiles) n b.
Proof.
  rewrite <- declared_inherits.
  apply (@collectInheritedBy_records
           (contractMap (buildInheritanceGraph workspaceFiles)) b).
Qed.
(** *** Implementing contracts *)

Section Closure.
Variable g : t.

(** [x] reaches [y] along one or more declared-base edges. *)
Definition reaches (x y : string) : Prop :=
  clos_trans string (inherits g) x y.

Hypothesis inheritedBy_sound :
  forall b n, In n (inheritorsOf b (inheritedBy g)) -> inherits g n b.

Definition collectStep (n : nat) (acc : option (list string))
  (inheritor : string) : option (list string) :=
  match acc with
  | Some r => collectInheritors n g inheritor (Js.add inheritor r)
  | None => None
  end.

Lemma collectInheritors_unfold (n : nat) (name : string)
  (result : list string) :
  collectInheritors (S n) g name result
  = match map_get name (inheritedBy g) with
    | Some inheritors =>
        fold_left (collectStep n) inheritors (Some result)
    | None => Some result
    end.
Proof. reflexivity. Qed.

Lemma fold_collectStep_none (n : nat) (inheritors : list string) :
  fold_left (collectStep n) inheritors None = None.
Proof. induction inheritors; simpl; auto. Qed.

(** Whatever [collectInheritors] adds to the set reaches the name it
    started from. *)
Lemma collectInheritors_sound (n : nat) :
  forall name result r,
    collectInheritors n g name result = Some r ->
    forall x, In x r -> In x result \/ reaches x name.
Proof.
  induction n as [| n IH]; intros name result r H x Hx;
    [discriminate |].
  rewrite collectInheritors_unfold in H.
  destruct (map_get name (inheritedBy g)) as [inheritors |] eqn:E;
    [| injection H as <-; now left].
  assert (Hall : forall i, In i inheritors -> inherits g i name).
  { intros i Hi. apply inheritedBy_sound.
    unfold inheritorsOf. now rewrite E. }
  clear E. revert result H.
  induction inheritors as [| i inheritors IHl]; intros result H.
  - injection H as <-. now left.
  - simpl in H.
    destruct (collectInheritors n g i (Js.add i result)) as [r1 |] eqn:E1;
      [| now rewrite fold_collectStep_none in H].
    destruct (IHl (fun j Hj => Hall j (or_intror Hj)) r1 H)
      as [Hr1 | Hreach]; [| now right].
    assert (Hi : reaches i name) by (apply t_step, Hall; now left).
    destruct (IH i (Js.add i result) r1 E1 x Hr1) as [Hadd | Hxi].
    + apply add_In in Hadd as [-> | Hres]; [now right | now left].
    + right. now apply t_trans with i.
Qed.
End Closure.

(** In the graph built from a workspace, when [getImplementingContracts]
    returns a list for a name, the list does not hold that name unless
    the name reaches itself along one or more declared-base edges.
    Whether a list is returned is another matter
    ([getImplementingContracts_returns] and the workspaces after it). *)
Lemma getImplementingContracts_excludes_self
  (workspaceFiles : Workspace) (name : string) (n : nat)
  (implementing : list string) :
  ~ reaches (buildInheritanceGraph workspaceFiles) name name ->
  getImplementingContracts n (buildInheritanceGraph workspaceFiles) name
  = Some implementing ->
  ~ In name implementing.
Proof.
  intros Hacyclic Hget Hin. apply Hacyclic.
  unfold getImplementingContracts in Hget.
  destruct (@collectInheritors_sound (buildInheritanceGraph workspaceFiles)
              (fun b i => proj1 (inheritedBy_inherits workspaceFiles i b))
              n name [] implementing Hget name Hin) as [[] | H].
  exact H.
Qed.
(** A rank that goes up along every declared-base edge rules cycles
    out. *)
Lemma ranked_no_cycle (g : t) (rank : string -> nat) :
  (forall n b, inherits g n b -> rank b < rank n) ->
  forall x, ~ reaches g x x.
Proof.
  intros Hrank x Hx.
  assert (H : forall a b, reaches g a b -> rank b < rank a).
  { intros a b Hab. induction Hab as [a b Hab | a b c _ IH1 _ IH2].
    - now apply Hrank.
    - lia. }
  specialize (H x x Hx). lia.
Qed.

(** Two contracts, [B is A], and the graph of that workspace. *)
Definition contractA : ContractInfo.t :=
  ContractInfo.mk "A" KContract
    [FunctionInfo.mk "m" "public" None [] [] [] "{ return 1; }"
       "function m() public returns (uint) { return 1; }"
       (SourceLocation.mk (Position.mk 2 4) (Position.mk 2 52)) "AB.sol"]
    [] [] [] []
    (SourceLocation.mk (Position.mk 1 0) (Position.mk 3 1)) "AB.sol".

Definition contractB : ContractInfo.t :=
  ContractInfo.mk "B" KContract [] [] [] [] ["A"]
    (SourceLocation.mk (Position.mk 5 0) (Position.mk 5 17)) "AB.sol".

Definition workspaceAB : Workspace :=
  [("AB.sol", ParsedFile.mk "AB.sol" [contractA; contractB] [] [])].

Lemma workspaceAB_no_cycle (x : string) :
  ~ reaches (buildInheritanceGraph workspaceAB) x x.
Proof.
  apply (@ranked_no_cycle _ (fun k => if String.eqb k "B" then 1 else 0)).
  intros n b [contract [Hin Hb]].
  destruct Hin as [H | [H | []]]; injection H as <- <-; simpl in Hb.
  - contradiction.
  - destruct Hb as [<- | []]. simpl. lia.
Defined.

Lemma getImplementingContracts_excludes_self_witness :
  getImplementingContracts 2 (buildInheritanceGraph workspaceAB) "A"
  = Some ["B"]
  /\ ~ In "A" ["B"].
Proof.
  split; [reflexivity |].
  apply (@getImplementingContracts_excludes_self workspaceAB "A" 2 ["B"]).
  - apply workspaceAB_no_cycle.
  - reflexivity.
Defined.

(** *** The closure returns when the graph has no cycle *)

Section Returns.
Variable g : t.
Hypothesis inheritedBy_sound :
  forall b n, In n (inheritorsOf b (inheritedBy g)) -> inherits g n b.
Hypothesis acyclic : forall x, ~ reaches g x x.
Variable root : string.

Let names : list string := root :: map fst (contractMap g).

Lemma collectInheritors_returns (n : nat) :
  forall name above result,
    In name names ->
    incl above names ->
    NoDup above ->
    (forall p, In p above -> reaches g name p) ->
    List.length (contractMap g) + 2 <= n + List.length above ->
    exists r, collectInheritors n g name result = Some r.
Proof.
  induction n as [| n IH]; intros name above result Hname Hincl Hnd Hup Hlen.
  - exfalso.
    pose proof (NoDup_incl_length Hnd Hincl) as Hle.
    unfold names in Hle. simpl in Hle. rewrite length_map in Hle. lia.
  - rewrite collectInheritors_unfold.
    destruct (map_get name (inheritedBy g)) as [inheritors |] eqn:E;
      [| now exists result].
    assert (Hall : forall i, In i inheritors -> inherits g i name).
    { intros i Hi. apply inheritedBy_sound.
      unfold inheritorsOf. now rewrite E. }
    clear E. revert result.
    induction inheritors as [| i inheritors IHl]; intros result.
    + now exists result.
    + simpl.
      assert (Hi : inherits g i name) by (apply Hall; now left).
      destruct (IH i (name :: above) (Js.add i result)) as [r1 Hr1].
      * right. destruct Hi as [c [Hc _]].
        apply in_map_iff. now exists (i, c).
      * intros p [<- | Hp]; [assumption | now apply Hincl].
      * constructor; [| assumption].
        intros Hin. now apply (acyclic (Hup name Hin)).
      * intros p [<- | Hp]; [now apply t_step |].
        apply t_trans with name; [now apply t_step | now apply Hup].
      * simpl. lia.
      * rewrite Hr1. apply IHl. intros j Hj. apply Hall. now right.
Qed.
End Returns.

(** Without a cycle in the graph, a call stack two frames deeper than
    the number of contracts is enough for [getImplementingContracts]
    to return. *)
Lemma getImplementingContracts_returns (workspaceFiles : Workspace)
  (name : string) :
  (forall x, ~ reaches (buildInheritanceGraph workspaceFiles) x x) ->
  exists implementing,
    getImplementingContracts
      (List.length (contractMap (buildInheritanceGraph workspaceFiles)) + 2)
      (buildInheritanceGraph workspaceFiles) name
    = Some implementing.
Proof.
  intros Hacyclic. unfold getImplementingContracts.
  apply (@collectInheritors_returns (buildInheritanceGraph workspaceFiles)
           (fun b i => proj1 (inheritedBy_inherits workspaceFiles i b))
           Hacyclic name _ name [] []).
  - now left.
  - intros p [].
  - constructor.
  - intros p [].
  - simpl. lia.
Qed.

(** Two contracts that declare each other as a base. *)
Definition workspaceCycle : Workspace :=
  [("Cycle.sol",
    ParsedFile.mk "Cycle.sol"
      [ContractInfo.mk "A" KContract [] [] [] [] ["B"]
         (SourceLocation.mk (Position.mk 1 0) (Position.mk 1 17)) "Cycle.sol";
       ContractInfo.mk "B" KContract [] [] [] [] ["A"]
         (SourceLocation.mk (Position.mk 2 0) (Position.mk 2 17)) "Cycle.sol"]
      [] [])].

(** On a cycle the closure goes round for ever: whatever the depth of
    call stack at hand, [getImplementingContracts] returns no list. *)
Lemma getImplementingContracts_cycle_never_returns (n : nat) :
  getImplementingContracts n (buildInheritanceGraph workspaceCycle) "A"
  = None.
Proof.
  unfold getImplementingContracts. generalize (@nil string) as result.
  assert (H : forall result,
             collectInheritors n (buildInheritanceGraph workspaceCycle)
                               "A" result = None
             /\ collectInheritors n (buildInheritanceGraph workspaceCycle)
                                  "B" result = None).
  { induction n as [| n IH]; intros result; [now split |].
    rewrite !collectInheritors_unfold.
    change (map_get "A" (inheritedBy (buildInheritanceGraph workspaceCycle)))
      with (Some ["B"]).
    change (map_get "B" (inheritedBy (buildInheritanceGraph workspaceCycle)))
      with (Some ["A"]).
    simpl fold_left. unfold collectStep.
    split; apply IH. }
  intros result. apply H.
Qed.

(** A path along declared-base edges starts with a declared base. *)
Lemma reaches_first_base (g : t) (x y : string) :
  reaches g x y -> exists z, inherits g x z.
Proof.
  intros H. induction H as [x y H | x y z _ IH _ _]; [now exists y | exact IH].
Qed.

(** A cycle below a contract that is on none: [A] has no base, [B is A, D]
    and [D is B]. *)
Definition workspaceCycleBelow : Workspace :=
  [("Below.sol",
    ParsedFile.mk "Below.sol"
      [ContractInfo.mk "A" KContract [] [] [] [] []
         (SourceLocation.mk (Position.mk 1 0) (Position.mk 1 13)) "Below.sol";
       ContractInfo.mk "B" KContract [] [] [] [] ["A"; "D"]
         (SourceLocation.mk (Position.mk 2 0) (Position.mk 2 23)) "Below.sol";
       ContractInfo.mk "D" KContract [] [] [] [] ["B"]
         (SourceLocation.mk (Position.mk 3 0) (Position.mk 3 18)) "Below.sol"]
      [] [])].

(** C6.  On the workspace above the property does not hold: [A] is a
    contract of the graph and reaches itself along no path of
    declared-base edges, so a list without [A] is due; and
    [getImplementingContracts] returns no list for [A], whatever the
    depth of call stack at hand: the closure has no visited check,
    unlike [computeInheritanceChain], and goes round the cycle of [B]
    and [D] below [A] until the stack is used up. *)
Theorem getImplementingContracts_cycle_below_never_returns :
  map_has "A" (contractMap (buildInheritanceGraph workspaceCycleBelow)) = true
  /\ ~ reaches (buildInheritanceGraph workspaceCycleBelow) "A" "A"
  /\ forall n : nat,
       getImplementingContracts n
         (buildInheritanceGraph workspaceCycleBelow) "A"
       = None.
Proof.
  split; [reflexivity |]. split.
  - intros H. apply reaches_first_base in H as [z [contract [Hin Hz]]].
    destruct Hin as [Hc | [Hc | [Hc | []]]];
      try discriminate Hc.
    injection Hc as <-. exact Hz.
  - intros n. unfold getImplementingContracts.
    generalize (@nil string) as result.
    assert (H : forall m result,
               collectInheritors m
                 (buildInheritanceGraph workspaceCycleBelow) "B" result
               = None
               /\ collectInheritors m
                    (buildInheritanceGraph workspaceCycleBelow) "D" result
                  = None).
    { induction m as [| m IH]; intros result; [now split |].
      rewrite !collectInheritors_unfold.
      change (map_get "B"
                (inheritedBy (buildInheritanceGraph workspaceCycleBelow)))
        with (Some ["D"]).
      change (map_get "D"
                (inheritedBy (buildInheritanceGraph workspaceCycleBelow)))
        with (Some ["B"]).
      simpl fold_left. unfold collectStep.
      split; apply IH. }
    intros result. destruct n as [| n]; [reflexivity |].
    rewrite collectInheritors_unfold.
    change (map_get "A"
              (inheritedBy (buildInheritanceGraph workspaceCycleBelow)))
      with (Some ["B"]).
    simpl fold_left. unfold collectStep. apply H.
Qed.

(** *** Linearized chains *)

(** The contracts of the map that a path has not been through. *)
Definition unvisited (cm : list (string * ContractInfo.t))
  (visited : list string) : nat :=
  List.length (filter (fun entry => negb (Js.has (fst entry) visited)) cm).

Lemma filter_length_lt (A : Type) (p q : A -> bool) (l : list A) :
  (forall x, p x = true -> q x = true) ->
  (exists x, In x l /\ q x = true /\ p x = false) ->
  List.length (filter p l) < List.length (filter q l).
Proof.
  intros Hpq.
  assert (Hle : forall l', List.length (filter p l')
                           <= List.length (filter q l')).
  { induction l' as [| y l' IH]; simpl; [lia |].
    destruct (p y) eqn:Ep.
    - rewrite (Hpq y Ep). simpl. lia.
    - destruct (q y); simpl; lia. }
  induction l as [| y l IH]; intros [x [Hin [Hq Hp]]]; [contradiction |].
  simpl. destruct Hin as [-> | Hin].
  - rewrite Hp, Hq. simpl. specialize (Hle l). lia.
  - assert (Hlt : List.length (filter p l) < List.length (filter q l))
      by (apply IH; now exists x).
    destruct (p y) eqn:Ep.
    + rewrite (Hpq y Ep). simpl. lia.
    + destruct (q y); simpl; lia.
Qed.

Lemma unvisited_add (cm : list (string * ContractInfo.t))
  (name : string) (contract : ContractInfo.t) (visited : list string) :
  map_get name cm = Some contract ->
  Js.has name visited = false ->
  unvisited cm (Js.add name visited) < unvisited cm visited.
Proof.
  intros Hget Hnew. unfold unvisited. apply filter_length_lt.
  - intros entry H. apply negb_true_iff in H. apply negb_true_iff.
    apply has_false_In. apply has_false_In in H.
    intros Hin. apply H. apply add_In. now right.
  - exists (name, contract). split; [now apply map_get_In |].
    simpl. rewrite Hnew. split; [reflexivity |].
    apply negb_false_iff. apply has_In. apply add_In. now left.
Qed.

Definition chainStep (n : nat) (cm : list (string * ContractInfo.t))
  (visited : list string) (chain : option (list string))
  (baseName : string) : option (list string) :=
  match chain with
  | Some c =>
      match computeInheritanceChain_depth n cm baseName visited with
      | Some baseChain => Some (appendNew c baseChain)
      | None => None
      end
  | None => None
  end.

Lemma computeInheritanceChain_depth_unfold (n : nat)
  (cm : list (string * ContractInfo.t)) (contractName : string)
  (visited : list string) :
  computeInheritanceChain_depth (S n) cm contractName visited
  = if Js.has contractName visited then Some []
    else
      match map_get contractName cm with
      | Some contract =>
          fold_left (chainStep n cm (Js.add contractName visited))
                    (ContractInfo.baseContracts contract)
                    (Some [contractName])
      | None => Some [contractName]
      end.
Proof. reflexivity. Qed.

(** The depth [computeInheritanceChain] allows is never used up. *)
Lemma computeInheritanceChain_depth_enough
  (cm : list (string * ContractInfo.t)) (n : nat) :
  forall contractName visited,
    unvisited cm visited < n ->
    exists chain,
      computeInheritanceChain_depth n cm contractName visited = Some chain.
Proof.
  induction n as [| n IH]; intros contractName visited Hn; [lia |].
  rewrite computeInheritanceChain_depth_unfold.
  destruct (Js.has contractName visited) eqn:Hvisited; [now exists [] |].
  destruct (map_get contractName cm) as [contract |] eqn:Hget;
    [| now exists [contractName]].
  pose proof (@unvisited_add cm contractName contract visited
                Hget Hvisited) as Hless.
  generalize [contractName] as chain.
  induction (ContractInfo.baseContracts contract) as [| baseName bases IHb];
    intros chain; simpl; [now exists chain |].
  destruct (IH baseName (Js.add contractName visited)) as [baseChain Hbase];
    [lia |].
  rewrite Hbase. apply IHb.
Qed.

Lemma computeInheritanceChain_total (cm : list (string * ContractInfo.t))
  (contractName : string) (visited : list string) :
  computeInheritanceChain_depth (S (List.length cm)) cm contractName visited
  = Some (computeInheritanceChain cm contractName visited).
Proof.
  unfold computeInheritanceChain.
  destruct (@computeInheritanceChain_depth_enough cm (S (List.length cm))
              contractName visited) as [chain ->]; [| reflexivity].
  unfold unvisited.
  pose proof (filter_length_le
                (fun entry => negb (Js.has (fst entry) visited)) cm).
  lia.
Qed.

Lemma appendNew_prefix (chain baseChain : list string) :
  exists rest, appendNew chain baseChain = chain ++ rest.
Proof.
  unfold appendNew. revert chain.
  induction baseChain as [| name baseChain IH]; intros chain; simpl.
  - exists []. now rewrite app_nil_r.
  - destruct (Js.has name chain).
    + apply IH.
    + destruct (IH (chain ++ [name])) as [rest Hrest].
      exists (name :: rest). rewrite Hrest, <- app_assoc. reflexivity.
Qed.

Lemma fold_chainStep_prefix (n : nat) (cm : list (string * ContractInfo.t))
  (visited bases chain0 chain : list string) :
  fold_left (chainStep n cm visited) bases (Some chain0) = Some chain ->
  exists rest, chain = chain0 ++ rest.
Proof.
  revert chain0. induction bases as [| baseName bases IH]; intros chain0 H.
  - injection H as <-. exists []. now rewrite app_nil_r.
  - simpl in H.
    destruct (computeInheritanceChain_depth n cm baseName visited)
      as [baseChain |].
    + apply IH in H as [rest ->].
      destruct (appendNew_prefix chain0 baseChain) as [rest0 ->].
      exists (rest0 ++ rest). now rewrite app_assoc.
    + assert (Hnone : forall l,
                 fold_left (chainStep n cm visited) l None = None)
        by (induction l; simpl; auto).
      rewrite Hnone in H. discriminate.
Qed.

(** A chain starts with the contract it is the chain of. *)
Lemma computeInheritanceChain_depth_head (n : nat)
  (cm : list (string * ContractInfo.t)) (contractName : string)
  (visited chain : list string) :
  computeInheritanceChain_depth n cm contractName visited = Some chain ->
  Js.has contractName visited = false ->
  exists rest, chain = contractName :: rest.
Proof.
  destruct n as [| n]; [discriminate |].
  rewrite computeInheritanceChain_depth_unfold. intros H Hnew.
  rewrite Hnew in H.
  destruct (map_get contractName cm) as [contract |].
  - apply fold_chainStep_prefix in H as [rest ->]. now exists rest.
  - injection H as <-. now exists [].
Qed.

Lemma collectChains_get (cm : list (string * ContractInfo.t))
  (name : string) :
  In name (map fst cm) ->
  map_get name (collectChains cm)
  = Some (computeInheritanceChain cm name []).
Proof.
  unfold collectChains.
  set (chainOf := fun k => computeInheritanceChain cm k []).
  change (In name (map fst cm) ->
          map_get name
            (fold_left (fun chains entry =>
                          map_set (fst entry) (chainOf (fst entry)) chains)
                       cm [])
          = Some (chainOf name)).
  assert (H : forall (l : list (string * ContractInfo.t)) acc,
             map_get name
               (fold_left (fun chains entry =>
                             map_set (fst entry) (chainOf (fst entry)) chains)
                          l acc)
             = if Js.has name (map fst l) then Some (chainOf name)
               else map_get name acc).
  { induction l as [| [k c] l IH]; intros acc; simpl; [reflexivity |].
    rewrite IH, map_get_set. unfold Js.has. simpl.
    rewrite (String.eqb_sym name k).
    destruct (String.eqb k name) eqn:E; simpl.
    - apply String.eqb_eq in E. subst k.
      now destruct (existsb (String.eqb name) (map fst l)).
    - reflexivity. }
  intros Hin. rewrite H. apply has_In in Hin. now rewrite Hin.
Qed.
(** *** A method inherited from a base *)

Lemma NoDup_all_eq (l : list string) (b : string) :
  NoDup l -> In b l -> (forall x, In x l -> x = b) -> l = [b].
Proof.
  intros Hnd Hin Hall. destruct l as [| x l]; [contradiction |].
  assert (x = b) by (apply Hall; now left). subst x.
  destruct l as [| y l]; [reflexivity |].
  assert (y = b) by (apply Hall; right; now left). subst y.
  inversion Hnd as [| ? ? Hnotin _]. exfalso. apply Hnotin. now left.
Qed.

Lemma unvisited_le (cm : list (string * ContractInfo.t))
  (visited : list string) :
  unvisited cm visited <= List.length cm.
Proof. unfold unvisited. apply filter_length_le. Qed.

(** C7.  In a workspace with a contract [A], not an interface, whose
    function [m] has a body, and a contract [B], not an interface
    either, that declares [A] as its only base and has no function [m]
    with a body, no other contract declaring [A] or [B] as a base:
    [findImplementations] on [A] and [m] returns exactly one
    implementation, whose [contractName] is [A], whose function is the
    [m] of [A], whose [isInherited] is [true] and whose
    [inheritanceChain] is the chain of [B], which starts with [B] and
    then [A]. *)
Theorem findImplementations_inherited_method
  (workspaceFiles : Workspace) (A B : ContractInfo.t) (m : string)
  (fA : FunctionInfo.t) (n : nat) :
  let g := buildInheritanceGraph workspaceFiles in
  map_get (ContractInfo.name A) (contractMap g) = Some A ->
  map_get (ContractInfo.name B) (contractMap g) = Some B ->
  ContractInfo.name A <> ContractInfo.name B ->
  is_interface (ContractInfo.kind A) = false ->
  is_interface (ContractInfo.kind B) = false ->
  ContractInfo.baseContracts B = [ContractInfo.name A] ->
  find (fun f => String.eqb (FunctionInfo.name f) m)
       (ContractInfo.functions A) = Some fA ->
  hasBody fA = true ->
  (forall f, In f (ContractInfo.functions B) ->
             FunctionInfo.name f = m -> hasBody f = false) ->
  (forall k c,
      In (k, c) (contractMap g) ->
      (In (ContractInfo.name A) (ContractInfo.baseContracts c) ->
       k = ContractInfo.name B)
      /\ ~ In (ContractInfo.name B) (ContractInfo.baseContracts c)) ->
  2 <= n ->
  exists chain,
    findImplementations n g (ContractInfo.name A) m
    = Some [ImplementationInfo.mk (ContractInfo.name A)
              (ContractInfo.kind A) fA (ContractInfo.filePath A) true chain]
    /\ map_get (ContractInfo.name B) (inheritanceChains g) = Some chain
    /\ exists rest,
         chain = ContractInfo.name B :: ContractInfo.name A :: rest.
Proof.
  intros g HA HB Hne HkA HkB Hbases Hfind Hbody HnoB Honly Hn.
  set (a := ContractInfo.name A) in *.
  set (b := ContractInfo.name B) in *.
  assert (Hab : String.eqb a b = false) by now apply String.eqb_neq.
  assert (Hchain : exists rest,
             computeInheritanceChain (contractMap g) b [] = b :: a :: rest).
  { unfold computeInheritanceChain.
    rewrite computeInheritanceChain_depth_unfold.
    change (Js.has b []) with false. cbv iota.
    rewrite HB, Hbases. change (Js.add b []) with [b].
    cbn [fold_left]. unfold chainStep.
    destruct (@computeInheritanceChain_depth_enough (contractMap g)
                (List.length (contractMap g)) a [b]) as [ca Hca].
    { pose proof (@unvisited_add (contractMap g) b B [] HB eq_refl) as H1.
      change (Js.add b []) with [b] in H1.
      pose proof (unvisited_le (contractMap g) []) as H2. lia. }
    rewrite Hca.
    destruct (computeInheritanceChain_depth_head _ _ _ _ Hca) as [ta ->].
    { unfold Js.has. simpl. now rewrite Hab. }
    unfold appendNew. cbn [fold_left].
    replace (Js.has a [b]) with false
      by (unfold Js.has; simpl; now rewrite Hab).
    destruct (appendNew_prefix ([b] ++ [a]) ta) as [rest Hrest].
    unfold appendNew in Hrest. rewrite Hrest. now exists rest. }
  destruct Hchain as [rest Hchain].
  exists (b :: a :: rest).
  assert (Hchains : map_get b (inheritanceChains g) = Some (b :: a :: rest)).
  { change (inheritanceChains g) with (collectChains (contractMap g)).
    rewrite collectChains_get; [now rewrite Hchain |].
    apply in_map_iff. exists (b, B). split; [reflexivity |].
    now apply map_get_In. }
  assert (Hmethod :
    findMethodInContract g b m
    = Some (ImplementationInfo.mk a (ContractInfo.kind A) fA
              (ContractInfo.filePath A) true (b :: a :: rest))).
  { unfold findMethodInContract. rewrite Hchains. cbn [first_some].
    assert (HatB : implementationAt g b m (b :: a :: rest) b = None).
    { unfold implementationAt. rewrite HB, HkB.
      destruct (find _ (ContractInfo.functions B)) as [fB |] eqn:EfB;
        [| reflexivity].
      apply find_some in EfB as [HinB HnameB].
      apply String.eqb_eq in HnameB. now rewrite (HnoB fB HinB HnameB). }
    rewrite HatB. unfold implementationAt.
    rewrite HA, HkA, Hfind, Hbody, Hab. reflexivity. }
  assert (HinhA : map_get a (inheritedBy g) = Some [b]).
  { assert (Hin : In b (inheritorsOf a (inheritedBy g))).
    { apply inheritedBy_inherits. exists B. split.
      - now apply map_get_In.
      - rewrite Hbases. now left. }
    assert (Hall : forall x, In x (inheritorsOf a (inheritedBy g)) -> x = b).
    { intros x Hx. apply inheritedBy_inherits in Hx as [c [Hc Hbase]].
      now apply (Honly x c Hc). }
    destruct (@collectInheritedBy_records (contractMap g) a) as [Hnd _].
    change (collectInheritedBy (contractMap g)) with (inheritedBy g) in Hnd.
    unfold inheritorsOf in Hin, Hall, Hnd.
    destruct (map_get a (inheritedBy g)) as [l |]; [| contradiction].
    f_equal. now apply NoDup_all_eq. }
  assert (Himpl : getImplementingContracts n g a = Some [b]).
  { destruct n as [| [| k]]; [lia | lia |].
    unfold getImplementingContracts.
    rewrite collectInheritors_unfold, HinhA.
    cbn [fold_left]. unfold collectStep. change (Js.add b []) with [b].
    rewrite collectInheritors_unfold.
    destruct (map_get b (inheritedBy g)) as [l |] eqn:El; [| reflexivity].
    destruct l as [| i l]; [reflexivity |]. exfalso.
    assert (Hi : inherits g i b).
    { apply inheritedBy_inherits. fold g. unfold inheritorsOf.
      rewrite El. now left. }
    destruct Hi as [c [Hc Hbase]]. now apply (Honly i c Hc). }
  unfold findImplementations. rewrite Himpl. cbn [fold_left].
  rewrite HB, HkB, Hmethod.
  split; [reflexivity |]. split; [exact Hchains | now exists rest].
Qed.

Lemma findImplementations_inherited_method_witness :
  exists chain,
    findImplementations 2 (buildInheritanceGraph workspaceAB) "A" "m"
    = Some [ImplementationInfo.mk "A" KContract
              (FunctionInfo.mk "m" "public" None [] [] [] "{ return 1; }"
                 "function m() public returns (uint) { return 1; }"
                 (SourceLocation.mk (Position.mk 2 4) (Position.mk 2 52))
                 "AB.sol")
              "AB.sol" true chain]
    /\ chain = ["B"; "A"].
Proof.
  destruct (@findImplementations_inherited_method workspaceAB
              contractA contractB "m"
              (FunctionInfo.mk "m" "public" None [] [] [] "{ return 1; }"
                 "function m() public returns (uint) { return 1; }"
                 (SourceLocation.mk (Position.mk 2 4) (Position.mk 2 52))
                 "AB.sol")
              2)
    as [chain [Hfound [Hchain _]]].
  - reflexivity.
  - reflexivity.
  - discriminate.
  - reflexivity.
  - reflexivity.
  - reflexivity.
  - reflexivity.
  - reflexivity.
  - intros f [].
  - intros k c [H | [H | []]]; injection H as <- <-; simpl; split.
    + intros [].
    + intros [].
    + reflexivity.
    + intros [H | []]. discriminate H.
  - lia.
  - exists chain. split; [exact Hfound |].
    assert (H : Some chain = Some ["B"; "A"])
      by (rewrite <- Hchain; reflexivity).
    now injection H.
Defined.
End Inheritance.

(* ------------------------------------------------------------------ *)
(** ** The matcher reads forward: the loops over matches end *)
(* ------------------------------------------------------------------ *)

Section MatcherProgress.
Import Regex.

(** The number of characters still to read at a position. *)
Definition remaining (p : cursor) : nat := List.length (after p).

(** The least number of characters any match of an expression reads. *)
Fixpoint min_len (r : regex) : nat :=
  match r with
  | RChr _ | RSet _ _ => 1
  | RSeq a b => min_len a + min_len b
  | RAlt a b => Nat.min (min_len a) (min_len b)
  | RGroup _ a => min_len a
  | _ => 0
  end.

(** No capturing group inside. *)
Fixpoint groupless (r : regex) : bool :=
  match r with
  | RSeq a b | RAlt a b => groupless a && groupless b
  | RStar _ a => groupless a
  | RGroup _ _ => false
  | _ => true
  end.

Lemma str_length (l : list ascii) : String.length (Js.str l) = List.length l.
Proof. induction l as [| c l IH]; simpl; [reflexivity | now rewrite IH]. Qed.

Lemma chars_length (t : string) : List.length (Js.chars t) = String.length t.
Proof. rewrite <- (str_length (Js.chars t)). now rewrite str_chars. Qed.

Lemma consumed_length (p q : cursor) :
  remaining q <= remaining p -> String.length (consumed p q) = remaining p - remaining q.
Proof.
  intros H. unfold consumed, remaining in *. rewrite str_length, length_firstn. lia.
Qed.

(** Where a match of [r] from [p] hands over to the continuation: at a
    position [q] at least [m] characters further, with new captures [new]
    in front of the old ones, each no longer than what was read, and none
    if [g] holds. *)
Definition reaches_from (R : Type) (m : nat) (g : bool) (p : cursor)
  (cs : captures) (k : cursor -> captures -> option R) (res : R) : Prop :=
  exists q new,
    k q (new ++ cs) = Some res
    /\ remaining q + m <= remaining p
    /\ (forall c, In c new -> String.length (snd c) + remaining q <= remaining p)
    /\ (g = true -> new = []).

Lemma repeat_step_reaches (R : Type)
  (step : cursor -> captures -> (cursor -> captures -> option R) -> option R)
  (greedy g : bool) (k : cursor -> captures -> option R) :
  (forall p cs k' res, step p cs k' = Some res ->
                       reaches_from 0 g p cs k' res) ->
  forall n p cs res,
    repeat_step step greedy k n p cs = Some res ->
    reaches_from 0 g p cs k res.
Proof.
  intros Hstep. induction n as [| n IH]; intros p cs res H.
  - exists p, []. simpl in *. repeat split; auto; try lia; try (intros ? []).
  - assert (Hhere : k p cs = Some res -> reaches_from 0 g p cs k res).
    { intros Hk. exists p, []. repeat split; auto; try lia; try (intros ? []). }
    assert (Hagain :
      step p cs (fun q cs' =>
                   if List.length (after q) <? List.length (after p)
                   then repeat_step step greedy k n q cs' else None)
      = Some res -> reaches_from 0 g p cs k res).
    { intros Hs. apply Hstep in Hs as (q1 & new1 & H1 & L1 & C1 & G1).
      destruct (List.length (after q1) <? List.length (after p)) eqn:Hlt;
        [| discriminate].
      apply IH in H1 as (q & new2 & H2 & L2 & C2 & G2).
      exists q, (new2 ++ new1). rewrite <- app_assoc.
      repeat split; auto; try lia.
      - intros c Hc. apply in_app_iff in Hc as [Hc | Hc].
        + specialize (C2 c Hc). lia.
        + specialize (C1 c Hc). lia.
      - intros Hg. now rewrite G1, G2. }
    simpl in H. destruct greedy.
    + destruct (step p cs _) as [x |] eqn:E.
      * injection H as ->. now apply Hagain.
      * now apply Hhere.
    + destruct (k p cs) as [x |] eqn:E.
      * injection H as ->. now apply Hhere.
      * now apply Hagain.
Qed.

Lemma reaches_from_weaken (R : Type) (m m' : nat) (g g' : bool)
  (p : cursor) (cs : captures) (k : cursor -> captures -> option R) (res : R) :
  m' <= m -> (g' = true -> g = true) ->
  reaches_from m g p cs k res -> reaches_from m' g' p cs k res.
Proof.
  intros Hm Hg (q & new & H & L & C & G).
  exists q, new. repeat split; auto; lia.
Qed.

(** A match reads at least [min_len r] characters, and its captures are
    pieces of what it read. *)
Lemma run_reaches (R : Type) (r : regex) :
  forall p cs (k : cursor -> captures -> option R) res,
    run r p cs k = Some res ->
    reaches_from (min_len r) (groupless r) p cs k res.
Proof.
  induction r as [| c | neg rs | a IHa b IHb | a IHa b IHb | greedy a IHa
                  | i a IHa | | | | rs];
    intros p cs k res H; simpl in H.
  - exists p, []. repeat split; auto; simpl; try lia; try (intros ? []).
  - destruct (after p) as [| x rest] eqn:E; [discriminate |].
    destruct (Ascii.eqb x c); [| discriminate].
    exists (Cursor (x :: before p) rest), [].
    unfold remaining. rewrite E. simpl. repeat split; auto; try lia; try (intros ? []).
  - destruct (after p) as [| x rest] eqn:E; [discriminate |].
    destruct (xorb neg (in_set rs x)); [| discriminate].
    exists (Cursor (x :: before p) rest), [].
    unfold remaining. rewrite E. simpl. repeat split; auto; try lia; try (intros ? []).
  - apply IHa in H as (q1 & new1 & H1 & L1 & C1 & G1).
    apply IHb in H1 as (q & new2 & H2 & L2 & C2 & G2).
    exists q, (new2 ++ new1). rewrite <- app_assoc. simpl.
    repeat split; auto; try lia.
    + intros c Hc. apply in_app_iff in Hc as [Hc | Hc].
      * specialize (C2 c Hc). lia.
      * specialize (C1 c Hc). lia.
    + intros Hg. apply andb_true_iff in Hg as [Ha Hb].
      now rewrite G1, G2.
  - destruct (run a p cs k) as [x |] eqn:E.
    + injection H as ->. apply IHa in E.
      apply reaches_from_weaken with (m := min_len a) (g := groupless a);
        simpl; [lia | | assumption].
      intros Hg. now apply andb_true_iff in Hg.
    + apply IHb in H.
      apply reaches_from_weaken with (m := min_len b) (g := groupless b);
        simpl; [lia | | assumption].
      intros Hg. now apply andb_true_iff in Hg.
  - simpl. apply repeat_step_reaches with (g := groupless a) in H;
      [assumption |].
    intros p' cs' k' res' H'. apply IHa in H'.
    now apply reaches_from_weaken with (m := min_len a) (g := groupless a);
      [lia | | ].
  - apply IHa in H as (q & new & H & L & C & G).
    exists q, ((i, consumed p q) :: new). simpl.
    repeat split; auto.
    + intros c [<- | Hc]; [| now apply C].
      simpl. rewrite consumed_length by lia. lia.
    + discriminate.
  - destruct (before p); [| discriminate].
    exists p, []. repeat split; auto; simpl; try lia; try (intros ? []).
  - destruct (after p) eqn:E; [| discriminate].
    exists p, []. repeat split; auto; simpl; try lia; try (intros ? []).
  - destruct (at_boundary p); [| discriminate].
    exists p, []. repeat split; auto; simpl; try lia; try (intros ? []).
  - assert (Hk : k p cs = Some res).
    { destruct (before p) as [| x l]; [assumption |].
      now destruct (in_set rs x). }
    exists p, []. repeat split; auto; simpl; try lia; try (intros ? []).
Qed.

(** A match found by a search starts at or after the position of the
    search. *)
Lemma search_match_at (r : regex) (n : nat) :
  forall p m,
    search r n p = Some m ->
    exists p', remaining p' <= remaining p /\ match_at r p' = Some m.
Proof.
  induction n as [| n IH]; intros p m H; simpl in H.
  - destruct (match_at r p) eqn:E; [| discriminate].
    injection H as ->. now exists p.
  - destruct (match_at r p) eqn:E.
    + injection H as ->. now exists p.
    + destruct (after p) as [| x rest] eqn:Ea; [discriminate |].
      apply IH in H as (p' & Hle & Hm). exists p'. split; [| assumption].
      unfold remaining in *. rewrite Ea. simpl in *. lia.
Qed.

Lemma match_at_end (r : regex) (p : cursor) (m : result) :
  match_at r p = Some m ->
  remaining (m_end m) + min_len r <= remaining p
  /\ (forall c, In c (m_groups m) -> String.length (snd c) <= remaining p).
Proof.
  unfold match_at. intros H.
  apply run_reaches in H as (q & new & H & L & C & _).
  injection H as <-. simpl. rewrite app_nil_r. split; [assumption |].
  intros c Hc. specialize (C c Hc). lia.
Qed.

Lemma search_end (r : regex) (n : nat) (p : cursor) (m : result) :
  search r n p = Some m -> remaining (m_end m) + min_len r <= remaining p.
Proof.
  intros H. apply search_match_at in H as (p' & Hle & Hm).
  apply match_at_end in Hm as [Hm _]. lia.
Qed.

(** For an expression that cannot match the empty string, the loop over
    the matches ends within the bound [scan] gives it: a larger bound
    gives the same matches. *)
Lemma scan_from_enough (r : regex) :
  1 <= min_len r ->
  forall n n' p,
    remaining p < n -> remaining p < n' -> scan_from r n p = scan_from r n' p.
Proof.
  intros Hr. induction n as [| n IH]; intros n' p Hn Hn'; [lia |].
  destruct n' as [| n']; [lia |]. simpl.
  destruct (search r (List.length (after p)) p) as [m |] eqn:E;
    [| reflexivity].
  apply search_end in E. f_equal. apply IH; lia.
Qed.

Lemma scan_enough (r : regex) (t : string) (n : nat) :
  1 <= min_len r ->
  String.length t < n ->
  scan_from r n (start_of t) = scan r t.
Proof.
  intros Hr Hn. unfold scan. apply scan_from_enough; [assumption | |];
    unfold remaining, start_of; simpl; rewrite chars_length; lia.
Qed.

(** Every expression the sources loop over reads at least one
    character. *)
Lemma scanned_patterns_read :
  Forall (fun r => 1 <= min_len r)
         (TypeResolver.varDeclPatterns
            ++ [TypeResolver.structInstPattern;
                TypeResolver.enumAccessPattern;
                TypeResolver.typeComparePattern;
                TypeResolver.genericPattern;
                CallGraphBuilder.directCallPattern;
                CallGraphBuilder.thisCallPattern;
                CallGraphBuilder.internalCallPattern;
                StateVariableResolver.identifierPattern]).
Proof. repeat constructor; simpl; lia. Qed.

(** *** The operands of a type name are shorter than the type name *)

Lemma exec_match_at (r : regex) (t : string) (m : result) :
  exec r t = Some m ->
  exists p, remaining p <= String.length t /\ match_at r p = Some m.
Proof.
  unfold exec. intros H. apply search_match_at in H as (p & Hle & Hm).
  exists p. split; [| assumption].
  unfold remaining, start_of in *. simpl in Hle. now rewrite chars_length in Hle.
Qed.

(** After a part without groups, the captures are pieces of the rest. *)
Lemma match_at_after_prefix (a b : regex) (p : cursor) (m : result) :
  match_at (RSeq a b) p = Some m ->
  groupless a = true ->
  forall c, In c (m_groups m) -> String.length (snd c) + min_len a <= remaining p.
Proof.
  unfold match_at. simpl. intros H Ha c Hc.
  apply run_reaches in H as (q1 & new1 & H1 & L1 & _ & G1).
  rewrite (G1 Ha) in H1. simpl in H1.
  apply run_reaches in H1 as (q & new2 & H2 & _ & C2 & _).
  injection H2 as <-. simpl in Hc. rewrite app_nil_r in Hc.
  specialize (C2 c Hc). lia.
Qed.

(** Between two parts without groups, the captures are pieces of the
    middle. *)
Lemma match_at_between (a x b : regex) (p : cursor) (m : result) :
  match_at (RSeq a (RSeq x b)) p = Some m ->
  groupless a = true ->
  groupless b = true ->
  forall c, In c (m_groups m) -> String.length (snd c) + min_len b <= remaining p.
Proof.
  unfold match_at. simpl. intros H Ha Hb c Hc.
  apply run_reaches in H as (q0 & new0 & H0 & L0 & _ & G0).
  rewrite (G0 Ha) in H0. simpl in H0.
  apply run_reaches in H0 as (q1 & new1 & H1 & L1 & C1 & _).
  apply run_reaches in H1 as (q & new2 & H2 & L2 & _ & G2).
  rewrite (G2 Hb) in H2. simpl in H2.
  injection H2 as <-. simpl in Hc. rewrite app_nil_r in Hc.
  specialize (C1 c Hc). lia.
Qed.

Lemma group_length (i : nat) (m : result) (bound : nat) :
  (forall c, In c (m_groups m) -> String.length (snd c) <= bound) ->
  String.length (group i m) <= bound.
Proof.
  intros H. unfold group, capture.
  destruct (find (fun c => fst c =? i) (m_groups m)) as [c |] eqn:E.
  - apply find_some in E as [Hin _]. now apply H.
  - simpl. lia.
Qed.

Lemma mapping_operands_shorter (t : string) (m : result) (i : nat) :
  exec TypeResolver.mappingPattern t = Some m ->
  String.length (group i m) < String.length t.
Proof.
  intros H. apply exec_match_at in H as (p & Hle & Hm).
  unfold TypeResolver.mappingPattern in Hm. cbn [seq] in Hm.
  pose proof (match_at_after_prefix _ _ _ Hm eq_refl) as Hc.
  assert (Hg : String.length (group i m) <= remaining p - 7).
  { apply group_length. intros c Hin. specialize (Hc c Hin).
    change (min_len (lit "mapping")) with 7 in Hc. lia. }
  apply match_at_end in Hm as [Hm _]. simpl in Hm. lia.
Qed.

Lemma array_element_shorter (t : string) (m : result) (i : nat) :
  exec TypeResolver.arrayPattern t = Some m ->
  String.length (group i m) < String.length t.
Proof.
  intros H. apply exec_match_at in H as (p & Hle & Hm).
  unfold TypeResolver.arrayPattern in Hm. cbn [seq] in Hm.
  pose proof (match_at_between _ _ _ _ Hm eq_refl eq_refl) as Hc.
  assert (Hg : String.length (group i m) <= remaining p - 2).
  { apply group_length. intros c Hin. specialize (Hc c Hin).
    simpl in Hc. lia. }
  apply match_at_end in Hm as [Hm _]. simpl in Hm. lia.
Qed.

Lemma drop_space_length (l : list ascii) :
  List.length (Js.drop_space l) <= List.length l.
Proof.
  induction l as [| c l IH]; simpl; [lia |].
  destruct (Js.is_space c); simpl; lia.
Qed.

Lemma trim_length (t : string) : String.length (Js.trim t) <= String.length t.
Proof.
  unfold Js.trim. rewrite str_length, length_rev.
  pose proof (drop_space_length (rev (Js.drop_space (Js.chars t)))) as H1.
  rewrite length_rev in H1.
  pose proof (drop_space_length (Js.chars t)) as H2.
  rewrite chars_length in H2. lia.
Qed.

(** The depth [extractFromTypeName] allows is never used up: any depth
    above the length of the type name gives the same result. *)
Lemma extractFromTypeName_depth_enough (n : nat) :
  forall n' typeName types,
    String.length typeName < n ->
    String.length typeName < n' ->
    TypeResolver.extractFromTypeName_depth n typeName types
    = TypeResolver.extractFromTypeName_depth n' typeName types.
Proof.
  induction n as [| n IH]; intros n' typeName types Hn Hn'; [lia |].
  destruct n' as [| n']; [lia |]. simpl.
  destruct (exec TypeResolver.mappingPattern typeName) as [m |] eqn:Em.
  - pose proof (mapping_operands_shorter _ 1 Em) as H1.
    pose proof (mapping_operands_shorter _ 2 Em) as H2.
    pose proof (trim_length (group 1 m)) as T1.
    pose proof (trim_length (group 2 m)) as T2.
    rewrite (IH n' (Js.trim (group 1 m)) types) by lia.
    apply IH; lia.
  - destruct (exec TypeResolver.arrayPattern typeName) as [m |] eqn:Ea;
      [| reflexivity].
    pose proof (array_element_shorter _ 1 Ea) as H1.
    pose proof (trim_length (group 1 m)) as T1.
    apply IH; lia.
Qed.

End MatcherProgress.

(* ------------------------------------------------------------------ *)
(** ** What the scan for identifiers finds in a text *)
(* ------------------------------------------------------------------ *)

Section IdentifierScan.
Import Regex StateVariableResolver.

(** Characters of a text, by their codes: the letters [A] to [Z] and [a]
    to [z], and the digits. *)
Definition isLetter (c : ascii) : bool :=
  let n := nat_of_ascii c in
  ((65 <=? n) && (n <=? 90)) || ((97 <=? n) && (n <=? 122)).

Definition isDigit (c : ascii) : bool :=
  let n := nat_of_ascii c in (48 <=? n) && (n <=? 57).

(** A letter, a digit or an underscore; and what such a run may start
    with to be an identifier. *)
Definition isWordChar (c : ascii) : bool :=
  isLetter c || isDigit c || Ascii.eqb c "_".

Definition isWordStart (c : ascii) : bool :=
  isLetter c || Ascii.eqb c "_".

(** The characters of an identifier of Solidity: the dollar sign too. *)
Definition isSolidityChar (c : ascii) : bool :=
  isWordChar c || Ascii.eqb c "$".

Definition isSolidityStart (c : ascii) : bool :=
  isWordStart c || Ascii.eqb c "$".

(** The classes of the expression: [\w] and [[a-zA-Z_]]. *)
Definition inWord (c : ascii) : bool := in_set word c.

Definition inStart (c : ascii) : bool :=
  in_set [("a", "z"); ("A", "Z"); ("_", "_")]%char c.

(** No character there, or one that is not of the class. *)
Definition noneOf (idChar : ascii -> bool) (o : option ascii) : bool :=
  match o with
  | Some c => negb (idChar c)
  | None => true
  end.

(** [x] stands in [src] as an identifier made of the characters [idChar],
    the first of them in [idStart]: [src] is [pre ++ x ++ post], [x] is not
    empty, and neither the last character of [pre] nor the first of [post]
    could make it longer. *)
Definition occursAsIdentifier (idStart idChar : ascii -> bool)
  (x src : string) : Prop :=
  exists pre post,
    Js.chars src = pre ++ Js.chars x ++ post
    /\ match Js.chars x with
       | c :: _ => idStart c = true
       | [] => False
       end
    /\ forallb idChar (Js.chars x) = true
    /\ noneOf idChar (hd_error (rev pre)) = true
    /\ noneOf idChar (hd_error post) = true.

Lemma inStart_inWord (c : ascii) :
  inStart c = true -> inWord c = true.
Proof.
  unfold inStart, inWord, in_set, word. simpl.
  intros H. apply orb_true_iff in H as [H | H]; [now rewrite H |].
  apply orb_true_iff in H as [H | H]; [rewrite H; now rewrite orb_true_r |].
  rewrite !orb_false_r in *. rewrite H. now rewrite !orb_true_r.
Qed.

Lemma is_word_opt_noneOf (o : option ascii) :
  is_word_opt o = false <-> noneOf inWord o = true.
Proof.
  destruct o as [c |]; simpl; [| tauto].
  unfold inWord. now rewrite negb_true_iff.
Qed.

Lemma cursor_eta (p : cursor) : Cursor (before p) (after p) = p.
Proof. now destruct p. Qed.

(** *** A repetition of one class *)

Lemma repeat_step_unfold (R : Type)
  (step : cursor -> captures -> (cursor -> captures -> option R) -> option R)
  (greedy : bool) (k : cursor -> captures -> option R)
  (n : nat) (p : cursor) (cs : captures) :
  repeat_step step greedy k (S n) p cs
  = if greedy then
      match step p cs (fun q cs' =>
                         if List.length (after q) <? List.length (after p)
                         then repeat_step step greedy k n q cs' else None) with
      | Some x => Some x
      | None => k p cs
      end
    else
      match k p cs with
      | Some x => Some x
      | None =>
          step p cs (fun q cs' =>
                       if List.length (after q) <? List.length (after p)
                       then repeat_step step greedy k n q cs' else None)
      end.
Proof. reflexivity. Qed.

Lemma repeat_class_sound (R : Type) (rs : list (ascii * ascii))
  (greedy : bool) (k : cursor -> captures -> option R) (n : nat) :
  forall p cs res,
    repeat_step (run (RSet false rs)) greedy k n p cs = Some res ->
    exists taken rest,
      after p = taken ++ rest
      /\ forallb (in_set rs) taken = true
      /\ k (Cursor (rev taken ++ before p) rest) cs = Some res.
Proof.
  induction n as [| n IH]; intros p cs res H.
  - exists [], (after p). simpl in *. now rewrite cursor_eta.
  - assert (Hhere : k p cs = Some res ->
                    exists taken rest,
                      after p = taken ++ rest
                      /\ forallb (in_set rs) taken = true
                      /\ k (Cursor (rev taken ++ before p) rest) cs = Some res).
    { intros Hk. exists [], (after p). simpl. now rewrite cursor_eta. }
    assert (Hagain :
      run (RSet false rs) p cs
          (fun q cs' =>
             if List.length (after q) <? List.length (after p)
             then repeat_step (run (RSet false rs)) greedy k n q cs'
             else None) = Some res ->
      exists taken rest,
        after p = taken ++ rest
        /\ forallb (in_set rs) taken = true
        /\ k (Cursor (rev taken ++ before p) rest) cs = Some res).
    { simpl. destruct (after p) as [| x rest0] eqn:E; [discriminate |].
      destruct (in_set rs x) eqn:Ex; [| discriminate]. simpl.
      destruct (List.length rest0 <? S (List.length rest0)); [| discriminate].
      intros Hr. apply IH in Hr as (taken & rest & Hrest & Hall & Hk).
      simpl in Hrest, Hk. exists (x :: taken), rest. simpl.
      rewrite Hrest, Ex, Hall. repeat split.
      now rewrite <- app_assoc. }
    rewrite repeat_step_unfold in H. destruct greedy.
    + destruct (run (RSet false rs) p cs _) as [y |] eqn:E.
      * injection H as ->. now apply Hagain.
      * now apply Hhere.
    + destruct (k p cs) as [y |] eqn:E.
      * injection H as ->. now apply Hhere.
      * now apply Hagain.
Qed.

Lemma repeat_class_greedy (R : Type) (rs : list (ascii * ascii))
  (k : cursor -> captures -> option R) (taken : list ascii) :
  forall p rest n cs res,
    after p = taken ++ rest ->
    forallb (in_set rs) taken = true ->
    match rest with c :: _ => in_set rs c = false | [] => True end ->
    List.length taken <= n ->
    k (Cursor (rev taken ++ before p) rest) cs = Some res ->
    repeat_step (run (RSet false rs)) true k n p cs = Some res.
Proof.
  induction taken as [| x taken IH]; intros p rest n cs res Hp Hall Hend Hn Hk;
    simpl in *.
  - rewrite <- Hp, cursor_eta in Hk. destruct n as [| n]; [exact Hk |].
    simpl. rewrite Hp. destruct rest as [| c rest]; [now rewrite Hk |].
    rewrite Hend. simpl. now rewrite Hk.
  - destruct n as [| n]; [lia |]. simpl. rewrite Hp.
    apply andb_true_iff in Hall as [Hx Hall]. rewrite Hx. simpl.
    rewrite length_app.
    replace (List.length taken + List.length rest
             <? S (List.length taken + List.length rest)) with true
      by (symmetry; apply Nat.ltb_lt; lia).
    rewrite (IH (Cursor (x :: before p) (taken ++ rest)) rest n cs res);
      simpl; auto; try lia.
    now rewrite <- app_assoc in Hk.
Qed.

(** *** One match of the pattern *)

(** At [p] starts a run of word characters, [run], that begins with a
    letter or an underscore and that the characters around it do not
    extend. *)
Definition token_at (p : cursor) (run rest : list ascii) : Prop :=
  after p = run ++ rest
  /\ match run with
     | c :: _ => inStart c = true
     | [] => False
     end
  /\ forallb inWord run = true
  /\ is_word_opt (hd_error (before p)) = false
  /\ is_word_opt (hd_error rest) = false.

Definition token_match (p : cursor) (run rest : list ascii) : result :=
  Match (index p) (Cursor (rev run ++ before p) rest) [(1, Js.str run)].

Lemma rev_head (P : ascii -> bool) (l tl : list ascii) :
  l <> [] -> forallb P l = true ->
  exists c t, rev l ++ tl = c :: t /\ P c = true.
Proof.
  intros Hne Hall.
  destruct (rev l) as [| c r] eqn:E.
  - apply (f_equal (@List.length ascii)) in E. rewrite length_rev in E.
    destruct l; [congruence | discriminate].
  - exists c, (r ++ tl). split; [reflexivity |].
    rewrite forallb_forall in Hall. apply Hall. apply in_rev.
    rewrite E. now left.
Qed.

Lemma consumed_run (p : cursor) (run rest : list ascii) (b : list ascii) :
  after p = run ++ rest -> consumed p (Cursor b rest) = Js.str run.
Proof.
  intros H. unfold consumed. simpl. rewrite H, length_app.
  replace (List.length run + List.length rest - List.length rest)
    with (List.length run + 0) by lia.
  now rewrite firstn_app_2, app_nil_r.
Qed.

Lemma at_boundary_before_word (p : cursor) (x : ascii) (rest : list ascii) :
  after p = x :: rest -> inWord x = true ->
  at_boundary p = negb (is_word_opt (hd_error (before p))).
Proof.
  intros E Hx. unfold at_boundary. rewrite E.
  change (is_word_opt (hd_error (x :: rest))) with (inWord x).
  rewrite Hx. now destruct (is_word_opt (hd_error (before p))).
Qed.

Lemma at_boundary_after_word (p : cursor) (c : ascii) (t : list ascii) :
  before p = c :: t -> inWord c = true ->
  at_boundary p = negb (is_word_opt (hd_error (after p))).
Proof.
  intros E Hc. unfold at_boundary. rewrite E.
  change (is_word_opt (hd_error (c :: t))) with (inWord c).
  now rewrite Hc.
Qed.

Lemma match_at_identifier (p : cursor) (m : result) :
  match_at identifierPattern p = Some m <->
  exists run rest, token_at p run rest /\ m = token_match p run rest.
Proof.
  unfold match_at, identifierPattern. cbn [seq]. split.
  - cbn [run]. destruct (at_boundary p) eqn:Hb; [| discriminate].
    destruct (after p) as [| x rest0] eqn:E; [discriminate |].
    change (xorb false
              (in_set [("a", "z"); ("A", "Z"); ("_", "_")]%char x))
      with (inStart x).
    destruct (inStart x) eqn:Hx; [| discriminate].
    intros H.
    apply repeat_class_sound in H as (taken & rest & Hrest & Hall & Hk).
    simpl in Hrest, Hk.
    destruct (at_boundary (Cursor (rev taken ++ x :: before p) rest))
      eqn:Hb'; [| discriminate].
    injection Hk as <-.
    assert (Hxw : inWord x = true) by now apply inStart_inWord.
    change (forallb inWord taken = true) in Hall.
    exists (x :: taken), rest. split.
    + unfold token_at. split; [now rewrite E, Hrest |].
      split; [exact Hx |].
      split; [simpl; now rewrite Hxw |].
      split.
      * rewrite (at_boundary_before_word p E Hxw) in Hb.
        now apply negb_true_iff in Hb.
      * destruct (@rev_head inWord (x :: taken) (before p))
          as (c & t & Hc & Hw); [discriminate | simpl; now rewrite Hxw |].
        simpl in Hc. rewrite <- app_assoc in Hc. simpl in Hc.
        rewrite (@at_boundary_after_word _ c t) in Hb'; [| exact Hc | exact Hw].
        now apply negb_true_iff in Hb'.
    + unfold token_match. f_equal.
      * simpl. now rewrite <- app_assoc.
      * f_equal. f_equal. apply consumed_run. now rewrite E, Hrest.
  - intros (run & rest & (Hp & Hstart & Hall & Hprev & Hnext) & ->).
    destruct run as [| x taken]; [contradiction |].
    assert (Hxw : inWord x = true) by now apply inStart_inWord.
    simpl in Hall. rewrite Hxw in Hall. simpl in Hall.
    assert (Hlast : exists c t,
               rev taken ++ x :: before p = c :: t /\ inWord c = true).
    { destruct (@rev_head inWord (x :: taken) (before p))
        as (c & t & Hc & Hw); [discriminate | simpl; now rewrite Hxw |].
      simpl in Hc. rewrite <- app_assoc in Hc. now exists c, t. }
    destruct Hlast as (c & t & Hc & Hw).
    cbn [run].
    rewrite (@at_boundary_before_word p x (taken ++ rest) Hp Hxw), Hprev.
    simpl negb. cbv iota. rewrite Hp. simpl app. cbv beta iota.
    change (xorb false
              (in_set [("a", "z"); ("A", "Z"); ("_", "_")]%char x))
      with (inStart x).
    rewrite Hstart. unfold star, w. cbn [run]. simpl after.
    apply repeat_class_greedy with (taken := taken) (rest := rest).
    + reflexivity.
    + exact Hall.
    + destruct rest as [| c' rest]; [exact I | exact Hnext].
    + rewrite length_app. lia.
    + cbv beta. simpl before.
      rewrite (@at_boundary_after_word
                 (Cursor (rev taken ++ x :: before p) rest) c t Hc Hw).
      simpl after. rewrite Hnext. simpl negb. cbv iota.
      unfold token_match. f_equal. f_equal.
      * simpl. now rewrite <- app_assoc.
      * f_equal. f_equal. apply consumed_run. exact Hp.
Qed.

(** *** The leftmost match *)

(** The position [s1] further than [p]. *)
Definition skip (p : cursor) (s1 s2 : list ascii) : cursor :=
  Cursor (rev s1 ++ before p) s2.

Lemma skip_cons (p : cursor) (x : ascii) (s1 s2 rest : list ascii) :
  skip (Cursor (x :: before p) rest) s1 s2 = skip p (x :: s1) s2.
Proof. unfold skip. simpl. now rewrite <- app_assoc. Qed.

Lemma skip_skip (p : cursor) (a b r s : list ascii) :
  skip (skip p a r) b s = skip p (a ++ b) s.
Proof. unfold skip. simpl. now rewrite rev_app_distr, app_assoc. Qed.

Lemma search_found (r : regex) (n : nat) :
  forall p m,
    search r n p = Some m ->
    exists s1 s2,
      after p = s1 ++ s2
      /\ match_at r (skip p s1 s2) = Some m
      /\ forall a b, s1 = a ++ b -> b <> [] ->
                     match_at r (skip p a (b ++ s2)) = None.
Proof.
  induction n as [| n IH]; intros p m H; simpl in H.
  - destruct (match_at r p) as [m' |] eqn:E; [| discriminate].
    injection H as ->. exists [], (after p). unfold skip. simpl.
    rewrite cursor_eta. repeat split; auto.
    intros a b Hab Hb. symmetry in Hab.
    apply app_eq_nil in Hab as [_ ->]. congruence.
  - destruct (match_at r p) as [m' |] eqn:E.
    + injection H as ->. exists [], (after p). unfold skip. simpl.
      rewrite cursor_eta. repeat split; auto.
      intros a b Hab Hb. symmetry in Hab.
      apply app_eq_nil in Hab as [_ ->]. congruence.
    + destruct (after p) as [| x rest] eqn:Ea; [discriminate |].
      apply IH in H as (s1 & s2 & Hrest & Hm & Hmin). simpl in Hrest.
      exists (x :: s1), s2. rewrite skip_cons in Hm.
      split; [simpl; now rewrite Hrest |]. split; [exact Hm |].
      intros a b Hab Hb. destruct a as [| y a].
      * simpl in Hab. subst b. unfold skip. simpl.
        rewrite <- Hrest, <- Ea, cursor_eta. exact E.
      * injection Hab as <- ->. rewrite <- skip_cons with (rest := rest).
        now apply Hmin.
Qed.

Lemma search_none (r : regex) (n : nat) :
  forall p,
    List.length (after p) <= n ->
    search r n p = None ->
    forall s1 s2, after p = s1 ++ s2 -> match_at r (skip p s1 s2) = None.
Proof.
  induction n as [| n IH]; intros p Hn H s1 s2 Hs; simpl in H.
  - destruct (match_at r p) as [m' |] eqn:E; [discriminate |].
    destruct (after p) as [| x rest] eqn:Ea; [| simpl in Hn; lia].
    symmetry in Hs. apply app_eq_nil in Hs as [-> ->].
    unfold skip. simpl. rewrite <- Ea, cursor_eta. exact E.
  - destruct (match_at r p) as [m' |] eqn:E; [discriminate |].
    destruct s1 as [| y s1].
    + simpl in Hs. unfold skip. simpl. rewrite <- Hs, cursor_eta. exact E.
    + destruct (after p) as [| x rest] eqn:Ea; [discriminate |].
      injection Hs as <- Hs.
      rewrite <- skip_cons with (rest := rest).
      apply IH; simpl in *; auto. lia.
Qed.

(** *** All the matches *)

(** [x] is a token that starts at [p] or further. *)
Definition token_from (p : cursor) (x : string) : Prop :=
  exists s1 run rest,
    after p = s1 ++ run ++ rest
    /\ token_at (skip p s1 (run ++ rest)) run rest
    /\ x = Js.str run.

Lemma group_token_match (p : cursor) (run rest : list ascii) :
  group 1 (token_match p run rest) = Js.str run.
Proof. reflexivity. Qed.

Lemma token_at_not_after_word (p : cursor) (l a : list ascii)
  (run rest : list ascii) :
  l <> [] -> forallb inWord l = true ->
  ~ token_at (skip p (a ++ l) (run ++ rest)) run rest.
Proof.
  intros Hne Hall (_ & _ & _ & Hprev & _).
  unfold skip in Hprev. simpl in Hprev. rewrite rev_app_distr in Hprev.
  destruct (@rev_head inWord l (rev a ++ before p) Hne Hall)
    as (c & t & Hc & Hw).
  rewrite <- app_assoc, Hc in Hprev.
  change (inWord c = false) in Hprev. congruence.
Qed.

Lemma forallb_app_l (P : ascii -> bool) (l1 l2 : list ascii) :
  forallb P (l1 ++ l2) = true -> forallb P l1 = true.
Proof. rewrite forallb_app. intros H. now apply andb_true_iff in H. Qed.

Lemma scan_from_identifier (n : nat) :
  forall p x,
    List.length (after p) < n ->
    In x (map (group 1) (scan_from identifierPattern n p)) <-> token_from p x.
Proof.
  induction n as [| n IH]; intros p x Hn; [lia |].
  simpl scan_from.
  destruct (search identifierPattern (List.length (after p)) p)
    as [m |] eqn:Es.
  - apply search_found in Es as (s1 & s2 & Hp & Hm & Hmin).
    pose proof Hm as Hm'.
    apply match_at_identifier in Hm' as (run & rest & Htok & ->).
    assert (Hs2 : s2 = run ++ rest) by (destruct Htok as [H _]; exact H).
    subst s2.
    assert (Hrun : run <> []).
    { destruct Htok as (_ & H & _). destruct run; [contradiction |].
      discriminate. }
    assert (Hwords : forallb inWord run = true)
      by (destruct Htok as (_ & _ & H & _); exact H).
    assert (Hlen : List.length rest < n).
    { rewrite Hp, !length_app in Hn.
      destruct run; [congruence | simpl in Hn; lia]. }
    cbn [map In]. rewrite group_token_match.
    assert (Hend : m_end (token_match (skip p s1 (run ++ rest)) run rest)
                   = skip p (s1 ++ run) rest).
    { unfold token_match, skip. simpl. now rewrite rev_app_distr, app_assoc. }
    rewrite Hend.
    rewrite (IH (skip p (s1 ++ run) rest) x) by exact Hlen.
    split.
    + intros [<- | (s1' & run' & rest' & Hrest & Htok' & ->)].
      * exists s1, run, rest. repeat split; auto; apply Htok.
      * simpl in Hrest. subst rest.
        exists (s1 ++ run ++ s1'), run', rest'.
        split; [now rewrite Hp, <- !app_assoc |]. split; [| reflexivity].
        unfold skip in *. simpl in *.
        now rewrite !rev_app_distr, <- !app_assoc in *.
    + intros (sk & run' & rest' & Hsk & Htok' & ->).
      assert (Hsame : sk = s1 -> Js.str run = Js.str run').
      { intros ->.
        assert (H' : match_at identifierPattern (skip p s1 (run ++ rest))
                     = Some (token_match (skip p s1 (run ++ rest)) run' rest')).
        { apply match_at_identifier. exists run', rest'. split; [| reflexivity].
          rewrite Hp in Hsk. apply app_inv_head in Hsk. now rewrite Hsk. }
        rewrite Hm in H'. now injection H'. }
      rewrite Hp in Hsk. apply app_eq_app in Hsk as [l [[H1 H2] | [H1 H2]]].
      * destruct l as [| c l].
        -- rewrite app_nil_r in H1. left. now apply Hsame.
        -- exfalso. rewrite H2 in Htok'.
           assert (Hnone := Hmin sk (c :: l) H1 ltac:(discriminate)).
           assert (Hsome : match_at identifierPattern
                             (skip p sk ((c :: l) ++ run ++ rest))
                           = Some (token_match
                                     (skip p sk ((c :: l) ++ run ++ rest))
                                     run' rest')).
           { apply match_at_identifier. exists run', rest'.
             split; [exact Htok' | reflexivity]. }
           congruence.
      * destruct l as [| c l].
        -- rewrite app_nil_r in H1. left. now apply Hsame.
        -- apply app_eq_app in H2 as [l2 [[H3 H4] | [H3 H4]]].
           ++ exfalso. subst sk.
              apply (@token_at_not_after_word p (c :: l) s1 run' rest');
                [discriminate | | exact Htok'].
              rewrite H3 in Hwords. now apply forallb_app_l in Hwords.
           ++ destruct l2 as [| c2 l2].
              ** exfalso. rewrite app_nil_r in H3. subst sk.
                 apply (@token_at_not_after_word p (c :: l) s1 run' rest');
                   [discriminate | | exact Htok'].
                 now rewrite H3.
              ** right. exists (c2 :: l2), run', rest'.
                 split; [exact H4 |]. split; [| reflexivity].
                 subst sk. rewrite H3 in Htok'.
                 now rewrite skip_skip, <- app_assoc.
  - simpl. split; [contradiction |].
    intros (sk & run' & rest' & Hsk & Htok' & ->).
    assert (Hnone := @search_none identifierPattern _ p (le_n _) Es
                       sk (run' ++ rest') Hsk).
    assert (Hsome : match_at identifierPattern (skip p sk (run' ++ rest'))
                    = Some (token_match (skip p sk (run' ++ rest')) run' rest')).
    { apply match_at_identifier. now exists run', rest'. }
    congruence.
Qed.

(** *** The scan and the text *)

Lemma chars_str (l : list ascii) : Js.chars (Js.str l) = l.
Proof. apply list_ascii_of_string_of_list_ascii. Qed.

Lemma inWord_isWordChar (c : ascii) : inWord c = isWordChar c.
Proof. destruct c as [[] [] [] [] [] [] [] []]; reflexivity. Qed.

Lemma inStart_isWordStart (c : ascii) : inStart c = isWordStart c.
Proof. destruct c as [[] [] [] [] [] [] [] []]; reflexivity. Qed.

Lemma noneOf_ext (P Q : ascii -> bool) (o : option ascii) :
  (forall c, P c = Q c) -> noneOf P o = noneOf Q o.
Proof. intros H. destruct o; simpl; [now rewrite H | reflexivity]. Qed.

Lemma occursAsIdentifier_ext (s1 s2 c1 c2 : ascii -> bool) (x src : string) :
  (forall c, s1 c = s2 c) -> (forall c, c1 c = c2 c) ->
  occursAsIdentifier s1 c1 x src -> occursAsIdentifier s2 c2 x src.
Proof.
  intros Hs Hc (pre & post & Hsrc & Hst & Hall & Hprev & Hnext).
  exists pre, post. split; [exact Hsrc |]. split.
  { destruct (Js.chars x); [exact Hst | now rewrite <- Hs]. }
  split.
  { rewrite <- Hall. clear - Hc. induction (Js.chars x) as [| c l IH]; simpl;
      [reflexivity | now rewrite IH, Hc]. }
  split.
  - now rewrite <- (@noneOf_ext c1 c2 _ Hc).
  - now rewrite <- (@noneOf_ext c1 c2 _ Hc).
Qed.

(** The scan meets [x] exactly when [x] stands in the text as a longest
    run of letters, digits and underscores that starts with a letter or
    an underscore. *)
Lemma identifiers_occur (src x : string) :
  In x (identifiers src)
  <-> occursAsIdentifier isWordStart isWordChar x src.
Proof.
  unfold identifiers, scan.
  rewrite scan_from_identifier
    by (unfold start_of; simpl; rewrite chars_length; lia).
  split.
  - intros (s1 & run & rest & Hsrc & (_ & Hst & Hall & Hprev & Hnext) & ->).
    apply (@occursAsIdentifier_ext inStart isWordStart inWord isWordChar);
      [exact inStart_isWordStart | exact inWord_isWordChar |].
    exists s1, rest. rewrite chars_str.
    unfold skip, start_of in Hprev. simpl in Hprev, Hsrc.
    rewrite app_nil_r in Hprev.
    split; [exact Hsrc |]. split; [exact Hst |]. split; [exact Hall |].
    split; now apply is_word_opt_noneOf.
  - intros H.
    apply (@occursAsIdentifier_ext isWordStart inStart isWordChar inWord)
      in H;
      [| intros c; symmetry; apply inStart_isWordStart
       | intros c; symmetry; apply inWord_isWordChar].
    destruct H as (pre & post & Hsrc & Hst & Hall & Hprev & Hnext).
    exists pre, (Js.chars x), post.
    split; [exact Hsrc |]. split; [| symmetry; apply str_chars].
    unfold token_at, skip, start_of. simpl. rewrite app_nil_r.
    split; [reflexivity |]. split; [exact Hst |]. split; [exact Hall |].
    split; now apply is_word_opt_noneOf.
Qed.

(** The reading under test: the names returned are the state variables
    whose name stands in the full source as an identifier of Solidity,
    which a dollar sign may be part of. *)
Definition reportsSolidityIdentifiers (functionInfo : FunctionInfo.t)
  (currentContract : ContractInfo.t) : Prop :=
  forall x : string,
    In x (extractStateVariableReferences functionInfo currentContract)
    <-> occursAsIdentifier isSolidityStart isSolidityChar x
          (FunctionInfo.fullSource functionInfo)
        /\ In x (map StateVariableInfo.name
                     (ContractInfo.stateVariables currentContract)).

(** A counter whose state variable has a dollar sign in its name, and
    the function that increments it. *)
Definition bump : FunctionInfo.t :=
  FunctionInfo.mk "bump" "public" None [] [] []
    "{ total$ += 1; }"
    "function bump() public { total$ += 1; }"
    (SourceLocation.mk (Position.mk 3 4) (Position.mk 3 43)) "Counter.sol".

Definition counter : ContractInfo.t :=
  ContractInfo.mk "Counter" KContract [bump] [] []
    [StateVariableInfo.mk "total$" "uint256" "public"
       "uint256 public total$;"
       (SourceLocation.mk (Position.mk 2 4) (Position.mk 2 26))
       "Counter.sol" "Counter"]
    [] (SourceLocation.mk (Position.mk 1 0) (Position.mk 4 1)) "Counter.sol".

(** C8, as stated, fails: the state variable [total$] stands in the full
    source of [bump] as an identifier, and the set returned is empty:
    the expression of the scan ends an identifier before a dollar
    sign. *)
Lemma dollar_identifier_not_reported :
  extractStateVariableReferences bump counter = []
  /\ ~ reportsSolidityIdentifiers bump counter.
Proof.
  assert (E : extractStateVariableReferences bump counter = [])
    by (vm_compute; reflexivity).
  split; [exact E |].
  intros H. destruct (H "total$") as [_ Hin]. rewrite E in Hin.
  apply Hin. split; [| now left].
  exists (Js.chars "function bump() public { "), (Js.chars " += 1; }").
  repeat split; reflexivity.
Qed.

(** The other way round: of [a$b] the scan reads [a] and [b], and a
    state variable [b] counts as referenced. *)
Example dollar_splits_identifier :
  identifiers "a$b = 1;" = ["a"; "b"].
Proof. vm_compute. reflexivity. Qed.

(** C8, amended.  For every function and contract, the set
    [extractStateVariableReferences] returns holds a name exactly when
    the name stands in the full source text of the function as a longest
    run of letters, digits and underscores that starts with a letter or
    an underscore (a dollar sign ends such a run) and the contract
    declares a state variable of that name; each name is there once.  No
    scope is looked at: a local variable of the same name counts. *)
Theorem extractStateVariableReferences_occurrences
  (functionInfo : FunctionInfo.t) (currentContract : ContractInfo.t) :
  NoDup (extractStateVariableReferences functionInfo currentContract)
  /\ forall x : string,
       In x (extractStateVariableReferences functionInfo currentContract)
       <-> occursAsIdentifier isWordStart isWordChar x
             (FunctionInfo.fullSource functionInfo)
           /\ In x (map StateVariableInfo.name
                        (ContractInfo.stateVariables currentContract)).
Proof.
  split.
  - unfold extractStateVariableReferences. apply references_NoDup.
    constructor.
  - intros x. rewrite <- identifiers_occur.
    unfold extractStateVariableReferences.
    rewrite references_In, stateVarNames_In. simpl. tauto.
Qed.

End IdentifierScan.

(* ------------------------------------------------------------------ *)
(** ** Worked examples *)
(* ------------------------------------------------------------------ *)

Section Examples.

Definition at_span (l1 c1 l2 c2 : Z) : SourceLocation.t :=
  SourceLocation.mk (Position.mk l1 c1) (Position.mk l2 c2).

Definition newline : string := String "010" "".

(** A library with a struct, an enum and an internal function. *)
Definition depositPool : StructInfo.t :=
  StructInfo.mk "DepositPool" [StructMember.mk "token" "address"]
                "struct DepositPool { address token; }"
                (at_span 3 4 3 40) "Types.sol" (Some "Types").

Definition strategy : EnumInfo.t :=
  EnumInfo.mk "Strategy" ["NO_YIELD"; "AAVE"]
              "enum Strategy { NO_YIELD, AAVE }"
              (at_span 4 4 4 36) "Types.sol" (Some "Types").

Definition validateReserveConfig : FunctionInfo.t :=
  FunctionInfo.mk "_validateReserveConfig" "internal" None
    [ParameterInfo.mk "config" "uint256" None] [] []
    "{ require(config > 0); }"
    "function _validateReserveConfig(uint256 config) internal { require(config > 0); }"
    (at_span 6 4 6 86) "Types.sol".

Definition typesFile : ParsedFile.t :=
  ParsedFile.mk "Types.sol"
    [ContractInfo.mk "Types" KLibrary [validateReserveConfig] [depositPool]
                     [strategy] [] [] (at_span 1 0 8 1) "Types.sol"]
    [] [].

(** A function of another file that uses all three, an interface cast, a
    helper that is defined nowhere, and itself. *)
Definition openPool : FunctionInfo.t :=
  FunctionInfo.mk "open" "external" None
    [ParameterInfo.mk "token_" "address" None;
     ParameterInfo.mk "config" "uint256" None] [] []
    "{}"
    ("function open(address token_, uint256 config) external {" ++ newline
     ++ "    DepositPool memory pool_ = DepositPool({token: token_});" ++ newline
     ++ "    if (strategy_ == Strategy.NO_YIELD) { _validateReserveConfig(config); _missingHelper(config); }" ++ newline
     ++ "    IERC20(token_).safeApprove(spender, amt); open(token_, config);" ++ newline
     ++ "}")%string
    (at_span 10 4 14 5) "Pool.sol".

Definition poolFile : ParsedFile.t :=
  ParsedFile.mk "Pool.sol"
    [ContractInfo.mk "Pool" KContract [openPool] [] [] [] []
                     (at_span 9 0 15 1) "Pool.sol"]
    [] [].

Definition poolWorkspace : Workspace :=
  [("Pool.sol", poolFile); ("Types.sol", typesFile)].

(** The struct of the declaration and the enum of the comparison are
    found in the other file; the interface is not offered. *)
Example resolveTypes_openPool :
  TypeResolver.resolveTypes openPool poolFile poolWorkspace
  = [TypeReference.mk "DepositPool" TStruct (Some (DStruct depositPool));
     TypeReference.mk "Strategy" TEnum (Some (DEnum strategy))].
Proof. vm_compute. reflexivity. Qed.

(** The calls met are the function itself, the defined helper and the
    missing one; the call on the interface cast is passed over. *)
Example extractFunctionCalls_openPool :
  map FunctionCallInfo.name (CallGraphBuilder.extractFunctionCalls openPool)
  = ["open"; "_validateReserveConfig"; "_missingHelper"; "open"].
Proof. vm_compute. reflexivity. Qed.

(** Only the defined helper is kept. *)
Example buildCallGraph_openPool :
  CallGraphBuilder.buildCallGraph openPool poolFile poolWorkspace
  = [FunctionCallInfo.mk "_validateReserveConfig" "_validateReserveConfig" []
       (at_span 12 42 12 65) (Some validateReserveConfig)].
Proof. vm_compute. reflexivity. Qed.

(** Elementary types give no reference. *)
Example resolveTypes_elementary_only :
  TypeResolver.resolveTypes
    (FunctionInfo.mk "g" "public" None [] [] [] "{}"
       "function g() public { uint256 x; address a; bool b; }"
       (at_span 20 4 20 57) "Pool.sol")
    poolFile poolWorkspace
  = [].
Proof. vm_compute. reflexivity. Qed.

End Examples.
